(** * TSTP Permission Changer: ownership audit and mutation engine

    A shallow embedding of [main.py]: the owner provider ([get_owner],
    [set_owner]), the audit table ([record_change], [get_all_changes], the
    [DELETE] of the revert worker), the three workers
    ([OwnershipCheckWorker], [OwnershipChangeWorker], [RevertOwnershipWorker])
    and the part of [FileOwnerChanger] that collects paths, cuts them into
    chunks, starts workers and receives their signals.

    Modelling conventions.
    - Python exceptions are values of [Exc]; a [try]/[except] is a [match].
    - The operating system is an explicit [World] that every effectful
      function takes and returns.  The POSIX branch of [get_owner] and
      [set_owner] is the one embedded ([os.stat], [pwd.getpwuid],
      [pwd.getpwnam], [os.chown]).
    - A path is a name of a file: [os.stat] and [os.chown] go from the path
      to the file it leads to (hard links, symbolic links and other spellings
      of a path lead to the same file) and read or write the owner of that
      file.
    - Every use of sqlite3, from [sqlite3.connect] to [conn.close()], may
      raise (database missing, locked or read-only, a text that cannot be
      encoded as UTF-8): the world holds, for the uses to come, the
      exception that each one raises, if any.  An exception comes before the
      statement is committed, so the table is then what it was.
    - A Qt signal emitted by a worker is an element of [Signal]; the slots of
      the main window consume the signals in delivery order.
    - [int((idx / total) * 100)] is computed with the kernel's binary64
      floats, which are the floats of Python.
    - A counter label of the window is the number it shows.  The log display
      is the sequence of texts given to [QTextEdit.append]; how Qt renders a
      text (plain, or as rich text when it looks like HTML) is not embedded.
    - [os.walk] lists a directory that it cannot enter (no permission, or a
      symbolic link to a directory) without descending into it.
    - The [logging] file [error_log.txt] is not part of the state. *)

From Stdlib Require Import ZArith Ascii.
From Stdlib Require PrimFloat FloatOps SpecFloat Uint63.
From stdpp Require Import gmap strings list pretty.

(** ** Exceptions *)

Inductive Exc (A : Type) : Type :=
  | Return (a : A)
  | Raise (msg : string).
Arguments Return {A} a.
Arguments Raise {A} msg.

(** ** The file system seen by [os.path.isfile], [os.path.isdir], [os.walk] *)

(** What lives at a path: a regular file, a directory (with a flag that says
    whether [os.scandir] may list it, and its entries in listing order), or
    something that is neither (a broken link, a socket). *)
#[warnings="-register-all"]
Inductive node : Type :=
  | File
  | Other
  | Dir (listable : bool) (entries : list (string * node)).

Definition is_dir_node (n : node) : bool :=
  match n with Dir _ _ => true | _ => false end.

(** ** The operating system and the audit database *)

Record passwd_entry := PwEntry {
  pw_name : string;
  pw_uid : nat;
  pw_gid : nat
}.

Record stat_result := StatResult {
  st_uid : nat;
  st_gid : nat
}.

(** One row of [ownership_changes]; the source reads it as the tuple
    [(id, path, original_owner, current_owner, operation_time)]. *)
Record ChangeRecord := Row {
  rec_id : nat;
  rec_path : string;
  rec_original_owner : string;
  rec_current_owner : string;
  rec_operation_time : nat
}.

(** The table and the counter that [AUTOINCREMENT] keeps in
    [sqlite_sequence]. *)
Record Database := Db {
  rows : list ChangeRecord;
  sqlite_sequence : nat
}.

Record World := MkWorld {
  dentries : gmap string node;          (* path |-> what is there *)
  links : gmap string nat;              (* path |-> the file it leads to *)
  inodes : gmap nat stat_result;        (* file |-> owner and group *)
  chown_denied : gset string;           (* paths on which chown is refused *)
  passwd : list passwd_entry;           (* the account database *)
  database : Database;                  (* ownership_changes.db *)
  sqlite_errors : list (option string); (* what the coming uses of sqlite3
                                           raise, oldest first; nothing
                                           beyond the end of the list *)
  clock : nat                           (* CURRENT_TIMESTAMP *)
}.

Definition with_inodes (w : World) (i : gmap nat stat_result) : World :=
  MkWorld (dentries w) (links w) i (chown_denied w) (passwd w) (database w)
          (sqlite_errors w) (clock w).

Definition with_database (w : World) (d : Database) : World :=
  MkWorld (dentries w) (links w) (inodes w) (chown_denied w) (passwd w) d
          (sqlite_errors w) (clock w).

Definition with_sqlite_errors (w : World) (l : list (option string)) : World :=
  MkWorld (dentries w) (links w) (inodes w) (chown_denied w) (passwd w)
          (database w) l (clock w).

(** *** Texts of exceptions

    [repr] of a string, which Python uses for the file name in the text of
    an [OSError] and for the text of a [KeyError]: the string between single
    quotes (between double quotes when it holds a single quote and no double
    quote), with the quote, the backslash and the control characters
    escaped.  Bytes above 127 are copied, as [repr] does for the printable
    characters that they encode. *)

Definition squote : ascii := "'"%char.
Definition dquote : ascii := "034"%char.
Definition backslash : ascii := "092"%char.

Fixpoint has_char (c : ascii) (s : string) : bool :=
  match s with
  | EmptyString => false
  | String d s' => bool_decide (d = c) || has_char c s'
  end.

Definition hex_digit (n : nat) : ascii :=
  ascii_of_nat (if n <? 10 then 48 + n else 87 + n).

Definition repr_char (quote c : ascii) : string :=
  let n := nat_of_ascii c in
  if bool_decide (c = quote) || bool_decide (c = backslash)
  then String backslash (String c "")
  else if n =? 9 then String backslash "t"
  else if n =? 10 then String backslash "n"
  else if n =? 13 then String backslash "r"
  else if (n <? 32) || (n =? 127)
  then String backslash "x"
       +:+ String (hex_digit (n / 16)) (String (hex_digit (n mod 16)) "")
  else String c "".

Fixpoint repr_body (quote : ascii) (s : string) : string :=
  match s with
  | EmptyString => ""
  | String c s' => repr_char quote c +:+ repr_body quote s'
  end.

Definition py_repr (s : string) : string :=
  let quote := if has_char squote s && negb (has_char dquote s)
               then dquote else squote in
  String quote (repr_body quote s +:+ String quote "").

(** [str(e)] for the [OSError] of a system call on [path]. *)
Definition os_error (errno : nat) (strerror path : string) : string :=
  "[Errno " +:+ pretty errno +:+ "] " +:+ strerror +:+ ": " +:+ py_repr path.

(** [str(e)] for a [KeyError]: the [repr] of its argument. *)
Definition key_error (arg : string) : string := py_repr arg.

(** *** Primitives of the platform *)

(** The file that [path] leads to, when there is one. *)
Definition lookup_file (w : World) (path : string) : option nat :=
  match links w !! path with
  | Some i => if bool_decide (is_Some (inodes w !! i)) then Some i else None
  | None => None
  end.

Definition os_stat (w : World) (path : string) : Exc stat_result :=
  match lookup_file w path ≫= (inodes w !!.) with
  | Some st => Return st
  | None => Raise (os_error 2 "No such file or directory" path)
  end.

Definition getpwuid (w : World) (uid : nat) : Exc passwd_entry :=
  match List.find (λ e, Nat.eqb (pw_uid e) uid) (passwd w) with
  | Some e => Return e
  | None => Raise (key_error ("getpwuid(): uid not found: " +:+ pretty uid))
  end.

Definition getpwnam (w : World) (name : string) : Exc passwd_entry :=
  match List.find (λ e, bool_decide (pw_name e = name)) (passwd w) with
  | Some e => Return e
  | None => Raise (key_error ("getpwnam(): name not found: " +:+ py_repr name))
  end.

(** [os.chown(path, uid, gid)] writes the owner and the group of the file
    that [path] leads to. *)
Definition os_chown (w : World) (path : string) (uid gid : nat) : Exc World :=
  match lookup_file w path with
  | None => Raise (os_error 2 "No such file or directory" path)
  | Some i =>
      if bool_decide (path ∈ chown_denied w)
      then Raise (os_error 1 "Operation not permitted" path)
      else Return (with_inodes w (<[i := StatResult uid gid]> (inodes w)))
  end.

(** *** [get_owner] (lines 44-61) and [set_owner] (lines 64-84) *)

Definition get_owner (w : World) (path : string) : string :=
  match os_stat w path with
  | Return stat_info =>
      match getpwuid w (st_uid stat_info) with
      | Return e => pw_name e
      | Raise _ => "Unknown"
      end
  | Raise _ => "Unknown"
  end.

Definition set_owner (w : World) (path user : string) : World * (bool * string) :=
  match getpwnam w user with
  | Raise e => (w, (false, e))
  | Return e1 =>
      let uid := pw_uid e1 in
      match getpwnam w user with
      | Raise e => (w, (false, e))
      | Return e2 =>
          let gid := pw_gid e2 in
          match os_chown w path uid gid with
          | Return w' => (w', (true, ""))
          | Raise e => (w, (false, e))
          end
      end
  end.

(** *** The audit table (lines 87-139) *)

Definition next_rowid (d : Database) : nat :=
  S (Nat.max (sqlite_sequence d) (foldr Nat.max 0 (rec_id <$> rows d))).

(** [INSERT INTO ownership_changes (path, original_owner, current_owner)]. *)
Definition db_insert (d : Database) (now : nat)
    (path original_owner current_owner : string) : Database :=
  let i := next_rowid d in
  Db (rows d ++ [Row i path original_owner current_owner now]) i.

(** [DELETE FROM ownership_changes WHERE id = ?]. *)
Definition db_delete (d : Database) (i : nat) : Database :=
  Db (filter (λ r, rec_id r ≠ i) (rows d)) (sqlite_sequence d).

(** One use of sqlite3 by the program ([sqlite3.connect], [cursor],
    [execute], [commit] or [fetchall], [close]): the exception that it
    raises, if any, and the world in which the use has been made. *)
Definition sqlite3_attempt (w : World) : World * option string :=
  match sqlite_errors w with
  | [] => (w, None)
  | e :: rest => (with_sqlite_errors w rest, e)
  end.

(** The coming use of sqlite3 raises. *)
Definition sqlite3_raises (w : World) : bool :=
  bool_decide (is_Some (sqlite3_attempt w).2).

(** [record_change] (lines 109-123): the [except] branch logs to the
    [logging] file and returns, so that nothing is recorded. *)
Definition record_change (w : World) (path original_owner current_owner : string)
    : World :=
  match sqlite3_attempt w with
  | (w1, None) =>
      with_database w1
        (db_insert (database w1) (clock w1) path original_owner current_owner)
  | (w1, Some e) => w1
  end.

(** [get_all_changes] (lines 126-139): the rows of the table, or [[]] from
    the [except] branch. *)
Definition get_all_changes (w : World) : World * list ChangeRecord :=
  match sqlite3_attempt w with
  | (w1, None) => (w1, rows (database w1))
  | (w1, Some e) => (w1, [])
  end.

(** ** Signals ([WorkerSignals], lines 142-151) *)

Inductive Signal : Type :=
  | progress_update (value : Z)
  | log_message (message : string)
  | counters_update (changed unchanged errors : nat)
  | status_update (message : string)
  | error_occurred (message : string)
  | ownership_change_finished.

(** ** Workers *)

(** The three local counters of a worker's [run]. *)
Record Tally := MkTally {
  changed : nat;
  unchanged : nat;
  errors : nat
}.

Definition tally0 : Tally := MkTally 0 0 0.
Definition incr_changed (t : Tally) : Tally :=
  MkTally (S (changed t)) (unchanged t) (errors t).
Definition incr_unchanged (t : Tally) : Tally :=
  MkTally (changed t) (S (unchanged t)) (errors t).
Definition incr_errors (t : Tally) : Tally :=
  MkTally (changed t) (unchanged t) (S (errors t)).
Definition tally_sum (t : Tally) : nat := changed t + unchanged t + errors t.
Definition tally_add (a b : Tally) : Tally :=
  MkTally (changed a + changed b) (unchanged a + unchanged b) (errors a + errors b).

(** *** [int((idx / total) * 100)]

    Python's [/] on two integers and [*] with an integer are IEEE 754
    binary64 operations; [int] truncates towards zero.  They are the kernel's
    primitive floats here. *)

Definition float_of_nat (n : nat) : PrimFloat.float :=
  PrimFloat.of_uint63 (Uint63.of_Z (Z.of_nat n)).

Definition int_of_float (f : PrimFloat.float) : Z :=
  match FloatOps.Prim2SF f with
  | SpecFloat.S754_finite s m e =>
      let a := if (0 <=? e)%Z then Z.shiftl (Z.pos m) e
               else Z.shiftr (Z.pos m) (- e) in
      if s then (- a)%Z else a
  | _ => 0%Z
  end.

Definition progress_percent (idx total : nat) : Z :=
  int_of_float
    (PrimFloat.mul (PrimFloat.div (float_of_nat idx) (float_of_nat total))
                   (float_of_nat 100)).

(** [if idx % 500 == 0 or idx == total: ... progress_update.emit(progress)] *)
Definition progress_due (idx total : nat) : bool :=
  (idx mod 500 =? 0) || (idx =? total).

Definition emit_progress (idx total : nat) : list Signal :=
  if progress_due idx total then [progress_update (progress_percent idx total)]
  else [].

(** The loop [for idx, x in enumerate(xs, 1): body; progress] shared by the
    three [run] methods.  [body] is the [try] block of the worker. *)
Section worker_loop.
Context {X : Type}.
Variable body : World → X → Tally → World * Tally * list Signal.

Fixpoint for_each (total idx : nat) (xs : list X) (w : World) (t : Tally)
    : World * Tally * list Signal :=
  match xs with
  | [] => (w, t, [])
  | x :: rest =>
      let '(w1, t1, out) := body w x t in
      let '(w2, t2, outs) := for_each total (S idx) rest w1 t1 in
      (w2, t2, out ++ emit_progress idx total ++ outs)
  end.

End worker_loop.

(** **** [OwnershipCheckWorker.run] (lines 164-194) *)

(** The [try] block of the loop body.  [get_owner] has caught its own
    exceptions and an [emit] does not raise, so the block returns. *)
Definition check_try (current_user : string) (w : World) (path : string)
    (t : Tally) : Exc (Tally * list Signal) :=
  let current_owner := get_owner w path in
  let out := [log_message ("Checked: " +:+ path +:+ " - Owner: " +:+ current_owner)] in
  if bool_decide (current_owner ≠ current_user)
  then Return (incr_unchanged t, out)    (* Mark as needing change *)
  else Return (incr_unchanged t, out).

(** The loop body: the [try] block and its [except] branch. *)
Definition check_item (current_user : string) (w : World) (path : string)
    (t : Tally) : World * Tally * list Signal :=
  match check_try current_user w path t with
  | Return (t', out) => (w, t', out)
  | Raise e =>
      (w, incr_errors t,
       [log_message ("Error processing " +:+ path +:+ ": " +:+ e)])
  end.

Definition OwnershipCheckWorker_run (w : World) (paths : list string)
    (current_user : string) : World * list Signal :=
  let total := length paths in
  let '(w', t, out) := for_each (check_item current_user) total 1 paths w tally0 in
  (w', out ++ [counters_update (changed t) (unchanged t) (errors t);
               status_update "Ownership check completed."]).

(** **** [OwnershipChangeWorker.run] (lines 207-242) *)

(** An element of [items]: the dict [{'path': ..., 'original_owner': ...}]. *)
Record Item := MkItem {
  item_path : string;
  item_original_owner : string
}.

(** The [try] block of the loop body.  [set_owner], [get_owner] and
    [record_change] have caught their own exceptions, so the block returns. *)
Definition change_try (current_user : string) (w : World) (item : Item)
    (t : Tally) : Exc (World * Tally * list Signal) :=
  let path := item_path item in
  let original_owner := item_original_owner item in
  let '(w1, (success, error)) := set_owner w path current_user in
  if success then
    let new_owner := get_owner w1 path in
    let out := [log_message ("Ownership changed for " +:+ path +:+ " to " +:+ new_owner)] in
    let w2 := record_change w1 path original_owner new_owner in
    Return (w2, incr_changed t, out)
  else
    Return (w1, incr_errors t,
            [log_message ("Failed to change owner for " +:+ path +:+ ": " +:+ error)]).

(** The loop body: the [try] block and its [except] branch. *)
Definition change_item (current_user : string) (w : World) (item : Item)
    (t : Tally) : World * Tally * list Signal :=
  match change_try current_user w item t with
  | Return r => r
  | Raise e =>
      (w, incr_errors t,
       [log_message ("Error changing ownership for " +:+ item_path item
                     +:+ ": " +:+ e)])
  end.

Definition OwnershipChangeWorker_run (w : World) (items : list Item)
    (current_user : string) : World * list Signal :=
  let total := length items in
  let '(w', t, out) := for_each (change_item current_user) total 1 items w tally0 in
  (w', out ++ [counters_update (changed t) (unchanged t) (errors t);
               status_update "Ownership change process completed.";
               ownership_change_finished]).

(** **** [RevertOwnershipWorker.run] (lines 254-293) *)

(** The [try] block of the loop body.  [set_owner] and [get_owner] have
    caught their own exceptions; sqlite3 may raise, after [set_owner] has
    changed the owner and the first line has been logged.  The block gives
    the world and the signals at the point where it ends, and the counters
    or the exception with which it ends. *)
Definition revert_try (w : World) (record : ChangeRecord) (t : Tally)
    : World * list Signal * Exc Tally :=
  let id := rec_id record in
  let path := rec_path record in
  let original_owner := rec_original_owner record in
  let '(w1, (success, error)) := set_owner w path original_owner in
  if success then
    let reverted_owner := get_owner w1 path in
    let out := [log_message ("Reverted ownership for " +:+ path +:+ " to " +:+ original_owner)] in
    (* Remove the record from the database *)
    match sqlite3_attempt w1 with
    | (w2, None) =>
        (with_database w2 (db_delete (database w2) id), out,
         Return (incr_changed t))
    | (w2, Some e) => (w2, out, Raise e)
    end
  else
    (w1, [log_message ("Failed to revert owner for " +:+ path +:+ ": " +:+ error)],
     Return (incr_errors t)).

(** The loop body: the [try] block and its [except] branch. *)
Definition revert_item (w : World) (record : ChangeRecord) (t : Tally)
    : World * Tally * list Signal :=
  let '(w', out, result) := revert_try w record t in
  match result with
  | Return t' => (w', t', out)
  | Raise e =>
      (w', incr_errors t,
       out ++ [log_message ("Error reverting ownership for " +:+ rec_path record
                            +:+ ": " +:+ e)])
  end.

Definition RevertOwnershipWorker_run (w : World) (records : list ChangeRecord)
    : World * list Signal :=
  let total := length records in
  let '(w', t, out) := for_each revert_item total 1 records w tally0 in
  (w', out ++ [counters_update (changed t) (unchanged t) (errors t);
               status_update "Reversion process completed.";
               ownership_change_finished]).

(** ** Gathering the paths of a run (lines 716-728) *)

Definition starts_with_sep (s : string) : bool :=
  match s with
  | String c _ => bool_decide (c = "/"%char)
  | EmptyString => false
  end.

Fixpoint ends_with_sep (s : string) : bool :=
  match s with
  | EmptyString => false
  | String c EmptyString => bool_decide (c = "/"%char)
  | String _ s' => ends_with_sep s'
  end.

(** [posixpath.join] on two arguments. *)
Definition os_path_join (a b : string) : string :=
  if starts_with_sep b then b
  else if bool_decide (a = "") || ends_with_sep a then a +:+ b
  else a +:+ "/" +:+ b.

Definition os_path_isfile (w : World) (path : string) : bool :=
  match dentries w !! path with Some File => true | _ => false end.

Definition os_path_isdir (w : World) (path : string) : bool :=
  match dentries w !! path with Some (Dir _ _) => true | _ => false end.

Definition dirs_of (entries : list (string * node)) : list string :=
  fst <$> filter (λ e : string * node, is_dir_node (snd e)) entries.

Definition nondirs_of (entries : list (string * node)) : list string :=
  fst <$> filter (λ e : string * node, ¬ is_dir_node (snd e)) entries.

(** [os.walk(top)] with its defaults (top-down, errors of [scandir]
    ignored): the triples [(root, dirs, files)] in the order it yields them. *)
Fixpoint os_walk (top : string) (n : node)
    : list (string * list string * list string) :=
  match n with
  | Dir true entries =>
      (top, dirs_of entries, nondirs_of entries)
      :: (fix walk_into (es : list (string * node)) :=
            match es with
            | [] => []
            | (name, child) :: es' =>
                (if is_dir_node child
                 then os_walk (os_path_join top name) child
                 else [])
                ++ walk_into es'
            end) entries
  | _ => []
  end.

(** The body of [for root, dirs, files in os.walk(path)]. *)
Definition walk_entries (t : string * list string * list string) : list string :=
  let '(root, dirs, files) := t in
  (os_path_join root <$> dirs) ++ (os_path_join root <$> files).

Definition expand_selected (w : World) (path : string) : list string :=
  if os_path_isfile w path then [path]
  else if os_path_isdir w path then
    match dentries w !! path with
    | Some n => os_walk path n ≫= walk_entries
    | None => []
    end
  else [].

(** [all_paths] of [check_ownership_info]. *)
Definition gather_all_paths (w : World) (selected_paths : list string)
    : list string :=
  selected_paths ≫= expand_selected w.

(** ** Cutting [all_paths] into chunks (lines 741-744) *)

(** [range(0, stop, step)] for [step > 0]. *)
Definition py_range (stop step : nat) : list nat :=
  (λ k, k * step) <$> seq 0 ((stop + step - 1) / step).

(** [l[i:j]] for [0 <= i <= j]. *)
Definition slice {A} (l : list A) (i j : nat) : list A :=
  take (j - i) (drop i l).

Definition chunk_size_of (max_thread_count : Z) (n : nat) : nat :=
  let num_threads := Z.min 4 max_thread_count in
  Z.to_nat (Z.max 1 (Z.of_nat n / num_threads)).

Definition make_chunks {A} (max_thread_count : Z) (all_paths : list A)
    : Exc (list (list A)) :=
  let num_threads := Z.min 4 max_thread_count in
  if (num_threads =? 0)%Z then Raise "integer division or modulo by zero"
  else
    let chunk_size := chunk_size_of max_thread_count (length all_paths) in
    Return ((λ i, slice all_paths i (i + chunk_size))
              <$> py_range (length all_paths) chunk_size).

(** ** The main window *)

(** The widgets the slots write.  A counter label is the number it shows
    ([show_final_report] reads the number back from the text).  The log
    display is the sequence of the texts given to its [append]. *)
Record Gui := MkGui {
  progress_bar : Z;
  changed_label : nat;
  unchanged_label : nat;
  errors_label : nat;
  log_display : list string;               (* texts appended *)
  status_bar : string;
  ownership_list : list (string * bool);   (* item text, checked *)
  message_boxes : list string;
  reports : list Tally                     (* FinalReportDialog shown *)
}.

Definition set_progress (g : Gui) (v : Z) : Gui :=
  MkGui v (changed_label g) (unchanged_label g) (errors_label g)
        (log_display g) (status_bar g) (ownership_list g) (message_boxes g)
        (reports g).
Definition set_counters (g : Gui) (c u e : nat) : Gui :=
  MkGui (progress_bar g) c u e (log_display g) (status_bar g)
        (ownership_list g) (message_boxes g) (reports g).
Definition set_log (g : Gui) (l : list string) : Gui :=
  MkGui (progress_bar g) (changed_label g) (unchanged_label g) (errors_label g)
        l (status_bar g) (ownership_list g) (message_boxes g) (reports g).
Definition set_status (g : Gui) (s : string) : Gui :=
  MkGui (progress_bar g) (changed_label g) (unchanged_label g) (errors_label g)
        (log_display g) s (ownership_list g) (message_boxes g) (reports g).
Definition set_ownership_list (g : Gui) (l : list (string * bool)) : Gui :=
  MkGui (progress_bar g) (changed_label g) (unchanged_label g) (errors_label g)
        (log_display g) (status_bar g) l (message_boxes g) (reports g).
Definition show_message_box (g : Gui) (s : string) : Gui :=
  MkGui (progress_bar g) (changed_label g) (unchanged_label g) (errors_label g)
        (log_display g) (status_bar g) (ownership_list g)
        (message_boxes g ++ [s]) (reports g).
Definition show_report (g : Gui) (r : Tally) : Gui :=
  MkGui (progress_bar g) (changed_label g) (unchanged_label g) (errors_label g)
        (log_display g) (status_bar g) (ownership_list g) (message_boxes g)
        (reports g ++ [r]).

(** The counters the window shows. *)
Definition counters (g : Gui) : Tally :=
  MkTally (changed_label g) (unchanged_label g) (errors_label g).

(** *** Slots (lines 860-924) *)

(** [QProgressBar.setValue] on the default range 0..100. *)
Definition update_progress (g : Gui) (value : Z) : Gui :=
  if ((0 <=? value) && (value <=? 100))%Z then set_progress g value else g.

Definition update_counters (g : Gui) (changed unchanged errors : nat) : Gui :=
  set_counters g changed unchanged errors.

(** [log_message] (lines 564-570): [self.log_display.append(message)]. *)
Definition log_message_slot (g : Gui) (message : string) : Gui :=
  set_log g (log_display g ++ [message]).

Definition update_status (g : Gui) (message : string) : Gui :=
  set_status g message.

Definition handle_error (g : Gui) (message : string) : Gui :=
  show_message_box g message.

Definition show_final_report (g : Gui) : Gui :=
  show_report g (counters g).

(** What the window does with one signal.  [finished_connected] says whether
    [ownership_change_finished] is connected to [show_final_report] (it is for
    change and revert runs, not for check runs). *)
Definition deliver (finished_connected : bool) (g : Gui) (s : Signal) : Gui :=
  match s with
  | progress_update v => update_progress g v
  | log_message m => log_message_slot g m
  | counters_update c u e => update_counters g c u e
  | status_update m => update_status g m
  | error_occurred m => handle_error g m
  | ownership_change_finished =>
      if finished_connected then show_final_report g else g
  end.

(** [# Reset counters and progress bar] at the start of every run. *)
Definition reset_run (g : Gui) (status : string) : Gui :=
  set_status (set_counters (set_log (set_progress g 0) []) 0 0 0) status.

(** *** Delivery order of the signals of several workers

    The workers of a check run post their signals to the queue of the main
    thread while it waits in [waitForDone]; the queue keeps the order of each
    worker and merges the workers in some order.  A schedule names, step by
    step, the worker whose next signal is queued; what is left when the
    schedule ends is queued worker by worker. *)
Fixpoint merge_signals (schedule : list nat) (traces : list (list Signal))
    : list Signal :=
  match schedule with
  | [] => mjoin traces
  | i :: schedule' =>
      match traces !! i with
      | Some (s :: rest) => s :: merge_signals schedule' (<[i := rest]> traces)
      | _ => merge_signals schedule' traces
      end
  end.

(** The signals the window receives from the check workers of [chunks]. *)
Definition check_workers_signals (w : World) (chunks : list (list string))
    (current_user : string) (schedule : list nat) : list Signal :=
  merge_signals schedule
    ((λ chunk, snd (OwnershipCheckWorker_run w chunk current_user)) <$> chunks).

(** *** [check_ownership_info] (lines 689-773) *)

Definition populate_ownership_list (w : World) (current_user : string)
    (g : Gui) (all_paths : list string) : Gui :=
  set_ownership_list g
    (ownership_list g ++
     ((λ path, (path, bool_decide (get_owner w path ≠ current_user)))
        <$> all_paths)).

Definition check_ownership_info (w : World) (g : Gui)
    (selected_files selected_folders : list string) (current_user : string)
    (max_thread_count : Z) (schedule : list nat) : Gui :=
  let selected_paths := selected_files ++ selected_folders in
  match selected_paths with
  | [] => show_message_box g "Please select at least one file or folder to check."
  | _ =>
      let g1 := set_ownership_list
                  (reset_run g "Starting ownership check...") [] in
      let all_paths := gather_all_paths w selected_paths in
      let total_items := length all_paths in
      let g2 := set_status g1 ("Total items to process: " +:+ pretty total_items) in
      match make_chunks max_thread_count all_paths with
      | Raise e =>
          show_message_box g2
            ("An error occurred during ownership check: " +:+ e)
      | Return chunks =>
          let g3 := populate_ownership_list w current_user g2 all_paths in
          let g4 := set_status g3 "Ownership check completed." in
          foldl (deliver false) g4
            (check_workers_signals w chunks current_user schedule)
      end
  end.

(** *** [change_permissions] (lines 793-858) *)

Definition selected_items_of (w : World) (g : Gui) : list Item :=
  (λ it, MkItem (fst it) (get_owner w (fst it)))
    <$> filter (λ it : string * bool, snd it) (ownership_list g).

Definition change_permissions (w : World) (g : Gui) (current_user : string)
    (confirmed : bool) : World * Gui :=
  let selected_items := selected_items_of w g in
  match selected_items with
  | [] => (w, show_message_box g "No items selected for ownership change.")
  | _ =>
      if negb confirmed then (w, g)
      else
        let g1 := reset_run g "Starting ownership change..." in
        let '(w', out) := OwnershipChangeWorker_run w selected_items current_user in
        (w', foldl (deliver true) g1 out)
  end.

(** *** [initiate_revert_changes] (lines 926-971) *)

(** [selected] are the positions the user picks in [RevertChangesDialog]. *)
Definition initiate_revert_changes (w : World) (g : Gui) (selected : list nat)
    : World * Gui :=
  let '(w0, records) := get_all_changes w in
  match records with
  | [] => (w0, show_message_box g "There are no ownership changes to revert.")
  | _ =>
      let selected_records := omap (λ i, records !! i) selected in
      match selected_records with
      | [] => (w0, g)
      | _ =>
          let g1 := reset_run g "Starting reversion of ownership changes..." in
          let '(w', out) := RevertOwnershipWorker_run w0 selected_records in
          (w', foldl (deliver true) g1 out)
      end
  end.

(** ** Observations on a sequence of signals *)

Definition as_tally (s : Signal) : option Tally :=
  match s with
  | counters_update c u e => Some (MkTally c u e)
  | _ => None
  end.

(** The tallies that a sequence of signals carries in [counters_update]. *)
Definition tallies_of (out : list Signal) : list Tally := omap as_tally out.

(** Every worker logs one line per item, before the progress update that
    follows the item.  [progress_history done out] pairs each progress value of
    [out] with the number of items logged before it. *)
Fixpoint progress_history (done : nat) (out : list Signal) : list (nat * Z) :=
  match out with
  | [] => []
  | log_message _ :: out' => progress_history (S done) out'
  | progress_update v :: out' => (done, v) :: progress_history done out'
  | _ :: out' => progress_history done out'
  end.

(** The state of a run after its first [k] items. *)
Definition state_after {X} (body : World → X → Tally → World * Tally * list Signal)
    (xs : list X) (k : nat) (w : World) : World * Tally :=
  fst (for_each body (length xs) 1 (take k xs) w tally0).

(** ** Well-formed trees and the entries of a directory *)

Fixpoint has_sep (s : string) : bool :=
  match s with
  | EmptyString => false
  | String c s' => bool_decide (c = "/"%char) || has_sep s'
  end.

(** A name as a directory holds it: not empty, no separator in it. *)
Definition simple_name (s : string) : bool :=
  negb (bool_decide (s = "")) && negb (has_sep s).

(** Every directory of the tree holds simple names, each one once. *)
Fixpoint wf_node (n : node) : bool :=
  match n with
  | Dir _ entries =>
      forallb simple_name (fst <$> entries)
      && bool_decide (NoDup (fst <$> entries))
      && (fix wf_all (es : list (string * node)) :=
            match es with
            | [] => true
            | (_, child) :: es' => wf_node child && wf_all es'
            end) entries
  | _ => true
  end.

(** What [os_path_join a] puts in front of a relative name. *)
Definition dir_prefix (a : string) : string :=
  if bool_decide (a = "") || ends_with_sep a then a else a +:+ "/".

Fixpoint is_prefix (p s : string) : bool :=
  match p, s with
  | EmptyString, _ => true
  | String c p', String d s' => bool_decide (c = d) && is_prefix p' s'
  | String _ _, EmptyString => false
  end.

(** The paths below a directory, relative to it, in the order in which
    [os_walk] and [walk_entries] produce them. *)
Fixpoint rel_entries (n : node) : list string :=
  match n with
  | Dir true entries =>
      dirs_of entries ++ nondirs_of entries
      ++ (fix below (es : list (string * node)) :=
            match es with
            | [] => []
            | (name, child) :: es' =>
                (if is_dir_node child
                 then (λ r, name +:+ "/" +:+ r) <$> rel_entries child
                 else [])
                ++ below es'
            end) entries
  | _ => []
  end.

(** What [os_walk] and [rel_entries] add for one entry of a directory. *)
Definition walk_child (top : string) (e : string * node)
    : list (string * list string * list string) :=
  if is_dir_node e.2 then os_walk (os_path_join top e.1) e.2 else [].

Definition rel_child (e : string * node) : list string :=
  if is_dir_node e.2 then (λ r, e.1 +:+ "/" +:+ r) <$> rel_entries e.2 else [].

(** [reaches n names n'] : from the directory [n], following [names] through
    directories that can be listed leads to the entry [n']. *)
Inductive reaches : node → list string → node → Prop :=
  | reaches_entry entries name child :
      (name, child) ∈ entries →
      reaches (Dir true entries) [name] child
  | reaches_below entries name child names n' :
      (name, child) ∈ entries →
      reaches child names n' →
      reaches (Dir true entries) (name :: names) n'.

(** No selected path lies inside a selected directory. *)
Definition roots_apart (w : World) (selected_paths : list string) : Prop :=
  ∀ r1 r2, r1 ∈ selected_paths → r2 ∈ selected_paths → r1 ≠ r2 →
    os_path_isdir w r1 = true → is_prefix (dir_prefix r1) r2 = false.

(** The directories among the selected paths are well formed. *)
Definition roots_wf (w : World) (selected_paths : list string) : Prop :=
  ∀ r n, r ∈ selected_paths → dentries w !! r = Some n → wf_node n = true.

(** The chunks of a check run ([[]] when [make_chunks] raises). *)
Definition chunks_of_run (w : World) (selected_paths : list string)
    (max_thread_count : Z) : list (list string) :=
  match make_chunks max_thread_count (gather_all_paths w selected_paths) with
  | Return chunks => chunks
  | Raise _ => []
  end.

Definition tally_total (ts : list Tally) : Tally := foldr tally_add tally0 ts.

(** [get_owner] falls into its [except] branch. *)
Definition owner_lookup_fails (w : World) (path : string) : bool :=
  match os_stat w path with
  | Raise _ => true
  | Return stat_info =>
      match getpwuid w (st_uid stat_info) with
      | Raise _ => true
      | Return _ => false
      end
  end.

(** ** More of the main window *)

(** [toggle_select_all] (lines 551-554). *)
Definition toggle_select_all (g : Gui) (checked : bool) : Gui :=
  set_ownership_list g ((λ it : string * bool, (it.1, checked)) <$> ownership_list g).


(** The labels of [FinalReportDialog] (lines 320-347), in layout order. *)
Inductive ReportLabel : Type :=
  | ChangedHeading
  | TotalChanged (n : nat)
  | NoChangesMade
  | UnchangedHeading
  | TotalUnchanged (n : nat)
  | ErrorsHeading
  | TotalErrors (n : nat)
  | NoErrorsFound.

Definition FinalReportDialog_init_ui (report : Tally) : list ReportLabel :=
  (if (0 <? changed report)
   then [ChangedHeading; TotalChanged (changed report)]
   else [NoChangesMade])
  ++ (if (0 <? unchanged report)
      then [UnchangedHeading; TotalUnchanged (unchanged report)]
      else [])
  ++ (if (0 <? errors report)
      then [ErrorsHeading; TotalErrors (errors report)]
      else [NoErrorsFound]).

Definition as_log (s : Signal) : option string :=
  match s with log_message m => Some m | _ => None end.

(** The lines that a sequence of signals adds to the log display. *)
Definition logs_of (out : list Signal) : list string := omap as_log out.

(** The line that a check worker logs for a path. *)
Definition checked_line (w : World) (path : string) : string :=
  "Checked: " +:+ path +:+ " - Owner: " +:+ get_owner w path.

(** ** Observations on worlds and runs *)

(** [w'] has the names, the files, the accounts and the [chown] permissions
    of [w]: only owners, the audit table and the uses of sqlite3 to come may
    differ. *)
Definition same_names (w w' : World) : Prop :=
  dentries w' = dentries w ∧ links w' = links w ∧ passwd w' = passwd w
  ∧ chown_denied w' = chown_denied w ∧ clock w' = clock w
  ∧ ∀ i, is_Some (inodes w' !! i) ↔ is_Some (inodes w !! i).

(** The files that a list of paths leads to. *)
Definition files_of (w : World) (paths : list string) : list nat :=
  omap (lookup_file w) paths.

(** The ids of the table are pairwise different and none is beyond the
    [AUTOINCREMENT] counter. *)
Definition db_wf (d : Database) : Prop :=
  NoDup (rec_id <$> rows d)
  ∧ Forall (λ r, rec_id r ≤ sqlite_sequence d) (rows d).

(** None of the next [n] uses of sqlite3 raises. *)
Definition sqlite3_works (n : nat) (w : World) : Prop :=
  Forall (λ e, e = None) (take n (sqlite_errors w)).

(** How many of the next [n] uses of sqlite3 raise. *)
Definition sqlite3_failures (n : nat) (w : World) : nat :=
  length (filter is_Some (take n (sqlite_errors w))).

(** A signal that a worker emits for one item. *)
Definition item_signal (s : Signal) : Prop :=
  match s with log_message _ | progress_update _ => True | _ => False end.

(** ** Example worlds *)

(** The paths of a tree mounted at [top], each with what is there. *)
Fixpoint mount (top : string) (n : node) : list (string * node) :=
  (top, n) ::
  match n with
  | Dir _ entries =>
      (fix mount_all (es : list (string * node)) :=
         match es with
         | [] => []
         | (name, child) :: es' =>
             mount (os_path_join top name) child ++ mount_all es'
         end) entries
  | _ => []
  end.

Definition accounts : list passwd_entry :=
  [PwEntry "root" 0 0; PwEntry "alice" 1000 1000; PwEntry "bob" 1001 1001].

(** A world whose files are those of [tree] at [top], one file for each
    path, all owned by bob, with [denied] the paths that refuse [chown], an
    empty audit table and a database in working order. *)
Definition world_of (top : string) (tree : node) (denied : gset string) : World :=
  let present := mount top tree in
  let files := seq 0 (length present) in
  MkWorld (list_to_map present)
          (list_to_map (zip present.*1 files))
          (list_to_map ((λ i, (i, StatResult 1001 1001)) <$> files))
          denied accounts (Db [] 0) [] 7.

(** [ln target name]: one more name for the file of [target]. *)
Definition hard_link (w : World) (target name : string) : World :=
  match links w !! target with
  | Some i =>
      MkWorld (<[name := File]> (dentries w)) (<[name := i]> (links w))
              (inodes w) (chown_denied w) (passwd w) (database w)
              (sqlite_errors w) (clock w)
  | None => w
  end.

(** A folder with [n] files [f0], [f1], ... *)
Definition flat_folder (n : nat) : node :=
  Dir true ((λ i, ("f" +:+ pretty i, File)) <$> seq 0 n).

Definition folder_world (n : nat) : World :=
  world_of "/srv/data" (flat_folder n) ∅.

(** [/home/bob] with a sub-folder, a file that refuses [chown], a socket and
    a folder that cannot be listed. *)
Definition home_tree : node :=
  Dir true [("docs", Dir true [("cv.txt", File)]);
            ("notes.txt", File);
            ("agent.sock", Other);
            ("private", Dir false [("key", File)])].

Definition home_world : World :=
  world_of "/home/bob" home_tree {[ "/home/bob/notes.txt" ]}.

(** [home_world] after [ln /home/bob/docs/cv.txt /home/bob/cv-link]. *)
Definition linked_world : World :=
  hard_link home_world "/home/bob/docs/cv.txt" "/home/bob/cv-link".

Definition fresh_gui : Gui := MkGui 0 0 0 0 [] "" [] [] [].

(** The world after alice took the file [cv.txt] from bob. *)
Definition changed_world : World :=
  (OwnershipChangeWorker_run home_world [MkItem "/home/bob/docs/cv.txt" "bob"]
     "alice").1.

Definition first_record : ChangeRecord :=
  Row 1 "/home/bob/docs/cv.txt" "bob" "alice" 7.

(** * Properties

    ** Chunks *)

Section chunks.
Context {A : Type}.
Implicit Types (l : list A) (cs n i : nat).

Lemma slice_length l i cs : length (slice l i (i + cs)) = Nat.min cs (length l - i).
Proof. unfold slice. rewrite length_take, length_drop. f_equal. lia. Qed.

Lemma join_slices l cs n :
  mjoin ((λ i, slice l i (i + cs)) <$> ((λ k, k * cs) <$> seq 0 n)) = take (n * cs) l.
Proof.
  induction n as [|n IH].
  - by rewrite take_0.
  - rewrite seq_S, !fmap_app, join_app, IH. simpl.
    rewrite app_nil_r. unfold slice.
    replace (n * cs + cs - n * cs) with cs by lia.
    rewrite take_take_drop. f_equal. lia.
Qed.

Lemma ceil_div_covers n cs : 0 < cs → n ≤ (n + cs - 1) / cs * cs.
Proof.
  intros Hcs.
  pose proof (Nat.div_mod_eq (n + cs - 1) cs) as Hd.
  pose proof (Nat.mod_upper_bound (n + cs - 1) cs) as Hm.
  nia.
Qed.

Lemma ceil_div_tight n cs : 0 < cs → 0 < n → ((n + cs - 1) / cs - 1) * cs < n.
Proof.
  intros Hcs Hn.
  pose proof (Nat.div_mod_eq (n + cs - 1) cs) as Hd.
  pose proof (Nat.mod_upper_bound (n + cs - 1) cs) as Hm.
  nia.
Qed.

Lemma py_range_length stop cs : length (py_range stop cs) = (stop + cs - 1) / cs.
Proof. unfold py_range. by rewrite length_fmap, length_seq. Qed.

Lemma py_range_lookup stop cs i :
  i < (stop + cs - 1) / cs → py_range stop cs !! i = Some (i * cs).
Proof.
  intros Hi. unfold py_range. rewrite list_lookup_fmap, lookup_seq_lt by done.
  done.
Qed.
End chunks.

Lemma chunk_size_of_nat (T : Z) (n : nat) :
  (1 ≤ T)%Z →
  chunk_size_of T n = Nat.max 1 (n / Nat.min 4 (Z.to_nat T)).
Proof.
  intros HT. unfold chunk_size_of.
  assert (Z.min 4 T = Z.of_nat (Nat.min 4 (Z.to_nat T))) as -> by lia.
  rewrite <- Nat2Z.inj_div. lia.
Qed.

Lemma chunk_size_of_pos (T : Z) (n : nat) : 0 < chunk_size_of T n.
Proof. unfold chunk_size_of. lia. Qed.

Lemma make_chunks_returns {A} (T : Z) (l : list A) :
  (1 ≤ T)%Z →
  let cs := chunk_size_of T (length l) in
  make_chunks T l
  = Return ((λ i, slice l i (i + cs)) <$> py_range (length l) cs).
Proof.
  intros HT cs. unfold make_chunks.
  by destruct (Z.eqb_spec (Z.min 4 T) 0) as [?|_]; [lia|].
Qed.

Lemma chunks_join {A} (l : list A) cs :
  0 < cs → mjoin ((λ i, slice l i (i + cs)) <$> py_range (length l) cs) = l.
Proof.
  intros Hcs. unfold py_range. rewrite join_slices.
  apply take_ge. by apply ceil_div_covers.
Qed.

Lemma chunks_count {A} (l : list A) cs :
  length ((λ i, slice l i (i + cs)) <$> py_range (length l) cs)
  = (length l + cs - 1) / cs.
Proof. by rewrite length_fmap, py_range_length. Qed.

Lemma chunks_sizes {A} (l : list A) cs i c :
  0 < cs →
  ((λ i, slice l i (i + cs)) <$> py_range (length l) cs) !! i = Some c →
  1 ≤ length c ≤ cs ∧ (S i < (length l + cs - 1) / cs → length c = cs).
Proof.
  intros Hcs. rewrite list_lookup_fmap. intros Hc.
  destruct (py_range (length l) cs !! i) as [j|] eqn:Hj; [|done].
  simpl in Hc. injection Hc as <-.
  assert (i < (length l + cs - 1) / cs) as Hi.
  { apply lookup_lt_Some in Hj. by rewrite py_range_length in Hj. }
  rewrite py_range_lookup in Hj by done. injection Hj as <-.
  rewrite slice_length.
  assert (0 < length l) as Hl.
  { destruct (length l) eqn:E; [|lia].
    rewrite Nat.div_small in Hi by lia. lia. }
  pose proof (ceil_div_tight (length l) cs Hcs Hl) as Htight.
  pose proof (Nat.div_mod_eq (length l + cs - 1) cs) as Hd.
  pose proof (Nat.mod_upper_bound (length l + cs - 1) cs) as Hm.
  split; [nia|]. intros Hlt. nia.
Qed.

(** X18.  The chunks are as many as the threads when the number of threads
    divides the number of paths. *)
Lemma make_chunks_count_exact {A} (T : Z) (l : list A) (q : nat) :
  (1 ≤ T)%Z → 0 < q → length l = q * Nat.min 4 (Z.to_nat T) →
  ∃ chunks, make_chunks T l = Return chunks
            ∧ length chunks = Nat.min 4 (Z.to_nat T).
Proof.
  intros HT Hq Hlen. eexists. split; [by apply make_chunks_returns|].
  rewrite chunks_count, chunk_size_of_nat, Hlen by done.
  set (nt := Nat.min 4 (Z.to_nat T)). assert (0 < nt) by lia.
  rewrite Nat.div_mul by lia.
  replace (Nat.max 1 q) with q by lia.
  symmetry. apply (Nat.div_unique _ _ _ (q - 1)); lia.
Qed.

(** C8 (amended).  For a list of [N] paths and at least one available
    thread, the list is cut with the stride [cs = max(1, N div min(4, threads))]
    into [ceil(N / cs)] contiguous chunks: every chunk but the last has exactly
    [cs] paths, the last one has between 1 and [cs] paths (a remainder makes a
    further, shorter chunk; it is not absorbed by the fourth one), and the
    chunks put end to end are the input, so every path is in exactly one
    chunk. *)
Theorem make_chunks_partition {A} (T : Z) (l : list A) :
  (1 ≤ T)%Z →
  let cs := chunk_size_of T (length l) in
  ∃ chunks,
    make_chunks T l = Return chunks
    ∧ cs = Nat.max 1 (length l / Nat.min 4 (Z.to_nat T))
    ∧ mjoin chunks = l
    ∧ length chunks = (length l + cs - 1) / cs
    ∧ ∀ i c, chunks !! i = Some c →
        1 ≤ length c ≤ cs ∧ (S i < length chunks → length c = cs).
Proof.
  intros HT cs.
  pose proof (chunk_size_of_pos T (length l)) as Hcs. fold cs in Hcs.
  eexists. split; [by apply make_chunks_returns|]. fold cs.
  split; [by apply chunk_size_of_nat|].
  split; [by apply chunks_join|].
  split; [by apply chunks_count|].
  intros i c Hc. rewrite chunks_count. by apply chunks_sizes.
Qed.

Section loop_facts.
Context {X : Type}.
Variable body : World → X → Tally → World * Tally * list Signal.

Lemma for_each_app total idx xs ys w t :
  for_each body total idx (xs ++ ys) w t =
  let '(w1, t1, o1) := for_each body total idx xs w t in
  let '(w2, t2, o2) := for_each body total (idx + length xs) ys w1 t1 in
  (w2, t2, o1 ++ o2).
Proof.
  revert idx w t. induction xs as [|x xs IH]; intros idx w t; simpl.
  - rewrite Nat.add_0_r. by destruct (for_each body total idx ys w t) as [[??]?].
  - destruct (body w x t) as [[w1 t1] o]. rewrite IH.
    destruct (for_each body total (S idx) xs w1 t1) as [[w2 t2] o2].
    replace (idx + S (length xs)) with (S idx + length xs) by lia.
    destruct (for_each body total (S idx + length xs) ys w2 t2) as [[w3 t3] o3].
    by rewrite <- !app_assoc.
Qed.

(** The world and the counters a loop ends with do not depend on the
    numbering of the items. *)
Lemma for_each_state_indep total total' idx idx' xs w t :
  fst (for_each body total idx xs w t) = fst (for_each body total' idx' xs w t).
Proof.
  revert idx idx' w t. induction xs as [|x xs IH]; intros idx idx' w t; simpl; [done|].
  destruct (body w x t) as [[w1 t1] o].
  specialize (IH (S idx) (S idx') w1 t1).
  destruct (for_each body total (S idx) xs w1 t1) as [[??]?].
  destruct (for_each body total' (S idx') xs w1 t1) as [[??]?].
  simpl in *. done.
Qed.

Hypothesis body_counts_one :
  ∀ w x t, tally_sum (body w x t).1.2 = S (tally_sum t).

Lemma for_each_tally_sum total idx xs w t :
  tally_sum (for_each body total idx xs w t).1.2 = tally_sum t + length xs.
Proof.
  revert idx w t. induction xs as [|x xs IH]; intros idx w t; simpl; [lia|].
  specialize (body_counts_one w x t).
  destruct (body w x t) as [[w1 t1] o]. specialize (IH (S idx) w1 t1).
  destruct (for_each body total (S idx) xs w1 t1) as [[w2 t2] o2].
  simpl in *. lia.
Qed.
End loop_facts.

Lemma state_after_S {X} (body : World → X → Tally → World * Tally * list Signal)
    xs k x w :
  xs !! k = Some x →
  state_after body xs (S k) w =
  (let '(wk, tk) := state_after body xs k w in (body wk x tk).1).
Proof.
  intros Hx. unfold state_after.
  rewrite (take_S_r _ _ _ Hx), for_each_app.
  destruct (for_each body (length xs) 1 (take k xs) w tally0) as [[wk tk] ok].
  simpl. destruct (body wk x tk) as [[??]?]. done.
Qed.

Lemma state_after_all {X} (body : World → X → Tally → World * Tally * list Signal)
    xs w :
  state_after body xs (length xs) w = (for_each body (length xs) 1 xs w tally0).1.
Proof. unfold state_after. by rewrite firstn_all. Qed.

(** ** [set_owner] *)


(** [set_owner] fails and leaves the world as it is, or it succeeds and has
    written the owner and the group of the file that the path leads to. *)
Lemma set_owner_cases w path user :
  (∃ msg, set_owner w path user = (w, (false, msg)))
  ∨ (∃ e i, getpwnam w user = Return e
            ∧ lookup_file w path = Some i
            ∧ (path ∉ chown_denied w)
            ∧ set_owner w path user
              = (with_inodes w (<[i := StatResult (pw_uid e) (pw_gid e)]> (inodes w)),
                 (true, ""))).
Proof.
  unfold set_owner. destruct (getpwnam w user) as [e1|msg]; [|eauto].
  unfold os_chown. destruct (lookup_file w path) as [i|]; [|eauto].
  case_bool_decide; [eauto|]. right. by exists e1, i.
Qed.

Lemma set_owner_failure w path user :
  (set_owner w path user).2.1 = false → (set_owner w path user).1 = w.
Proof.
  destruct (set_owner_cases w path user) as [[e ->]|(e&i&_&_&_&->)]; simpl; done.
Qed.

Lemma set_owner_database w path user :
  database (set_owner w path user).1 = database w.
Proof.
  destruct (set_owner_cases w path user) as [[e ->]|(e&i&_&_&_&->)]; simpl; done.
Qed.

Lemma set_owner_sqlite_errors w path user :
  sqlite_errors (set_owner w path user).1 = sqlite_errors w.
Proof.
  destruct (set_owner_cases w path user) as [[e ->]|(e&i&_&_&_&->)]; simpl; done.
Qed.

(** ** Uses of sqlite3 *)

Lemma sqlite3_attempt_database w : database (sqlite3_attempt w).1 = database w.
Proof. unfold sqlite3_attempt. by destruct (sqlite_errors w). Qed.

Lemma sqlite3_attempt_errors w :
  sqlite_errors (sqlite3_attempt w).1 = tail (sqlite_errors w).
Proof. unfold sqlite3_attempt. by destruct (sqlite_errors w) eqn:E. Qed.

Lemma sqlite3_attempt_clock w : clock (sqlite3_attempt w).1 = clock w.
Proof. unfold sqlite3_attempt. by destruct (sqlite_errors w). Qed.

Lemma sqlite3_raises_false w :
  sqlite3_raises w = false → (sqlite3_attempt w).2 = None.
Proof.
  unfold sqlite3_raises. intros H%bool_decide_eq_false.
  destruct (sqlite3_attempt w).2; [|done]. destruct H. eauto.
Qed.

Lemma sqlite3_raises_true w :
  sqlite3_raises w = true → ∃ e, (sqlite3_attempt w).2 = Some e.
Proof. unfold sqlite3_raises. intros [e He]%bool_decide_eq_true. eauto. Qed.

Lemma sqlite3_raises_set_owner w path user :
  sqlite3_raises (set_owner w path user).1 = sqlite3_raises w.
Proof.
  unfold sqlite3_raises, sqlite3_attempt. rewrite set_owner_sqlite_errors.
  by destruct (sqlite_errors w).
Qed.

(** What [record_change] leaves: one more row, or the table as it was when
    sqlite3 raised. *)
Lemma record_change_database w path original_owner current_owner :
  database (record_change w path original_owner current_owner)
  = if sqlite3_raises w then database w
    else db_insert (database w) (clock w) path original_owner current_owner.
Proof.
  unfold record_change, sqlite3_raises.
  pose proof (sqlite3_attempt_database w) as Hd.
  pose proof (sqlite3_attempt_clock w) as Hc.
  destruct (sqlite3_attempt w) as [w1 [e|]]; simpl in *; [done|].
  by rewrite Hd, Hc.
Qed.

Lemma record_change_sqlite_errors w path original_owner current_owner :
  sqlite_errors (record_change w path original_owner current_owner)
  = tail (sqlite_errors w).
Proof.
  unfold record_change. pose proof (sqlite3_attempt_errors w) as He.
  by destruct (sqlite3_attempt w) as [w1 [e|]].
Qed.

(** ** One item of a change run and of a revert run *)

Lemma change_item_failure current_user w item t :
  (set_owner w (item_path item) current_user).2.1 = false →
  (change_item current_user w item t).1 = (w, incr_errors t).
Proof.
  intros Hfail. pose proof (set_owner_failure _ _ _ Hfail) as Hw.
  unfold change_item, change_try.
  destruct (set_owner w (item_path item) current_user) as [w1 [success error]].
  simpl in *. subst. done.
Qed.

Lemma change_item_success current_user w item t :
  (set_owner w (item_path item) current_user).2.1 = true →
  (change_item current_user w item t).1 =
  (let w1 := (set_owner w (item_path item) current_user).1 in
   (record_change w1 (item_path item) (item_original_owner item)
      (get_owner w1 (item_path item)), incr_changed t)).
Proof.
  intros Hok. unfold change_item, change_try.
  destruct (set_owner w (item_path item) current_user) as [w1 [success error]].
  simpl in *. subst. done.
Qed.

Lemma revert_item_failure w record t :
  (set_owner w (rec_path record) (rec_original_owner record)).2.1 = false →
  (revert_item w record t).1 = (w, incr_errors t).
Proof.
  intros Hfail. pose proof (set_owner_failure _ _ _ Hfail) as Hw.
  unfold revert_item, revert_try.
  destruct (set_owner w (rec_path record) (rec_original_owner record))
    as [w1 [success error]].
  simpl in *. subst. done.
Qed.

(** After a [set_owner] that succeeded: the [DELETE] goes through and the
    record counts as changed, or sqlite3 raises and the [except] branch counts
    an error, in the world that [set_owner] has left. *)
Lemma revert_item_success w record t :
  (set_owner w (rec_path record) (rec_original_owner record)).2.1 = true →
  (revert_item w record t).1 =
  (let w1 := (set_owner w (rec_path record) (rec_original_owner record)).1 in
   let w2 := (sqlite3_attempt w1).1 in
   if sqlite3_raises w1 then (w2, incr_errors t)
   else (with_database w2 (db_delete (database w2) (rec_id record)),
         incr_changed t)).
Proof.
  intros Hok. unfold revert_item, revert_try, sqlite3_raises.
  destruct (set_owner w (rec_path record) (rec_original_owner record))
    as [w1 [success error]].
  simpl in *. subst. by destruct (sqlite3_attempt w1) as [w2 [e|]].
Qed.

(** C5.  In a change run, when [set_owner] fails on the item at position [k],
    the run goes from its state before that item to its state after it by
    adding exactly one to [errors]: [changed] and [unchanged] keep their value,
    no row is added to the audit table, and the world, hence the owner of the
    path, is what it was. *)
Theorem change_failure_counts_one_error (w : World) (current_user : string)
    (items : list Item) (k : nat) (item : Item) :
  items !! k = Some item →
  let before := state_after (change_item current_user) items k w in
  let after := state_after (change_item current_user) items (S k) w in
  (set_owner before.1 (item_path item) current_user).2.1 = false →
  errors after.2 = S (errors before.2)
  ∧ changed after.2 = changed before.2
  ∧ unchanged after.2 = unchanged before.2
  ∧ database after.1 = database before.1
  ∧ get_all_changes after.1 = get_all_changes before.1
  ∧ get_owner after.1 (item_path item) = get_owner before.1 (item_path item)
  ∧ after.1 = before.1.
Proof.
  intros Hk before after Hfail. subst after.
  rewrite (state_after_S _ _ _ _ _ Hk). fold before.
  destruct before as [wk tk]. simpl in Hfail.
  rewrite (change_item_failure _ _ _ _ Hfail). simpl. done.
Qed.

(** C6 (amended).  In a revert run, for the record at position [k]:
    - when [set_owner(path, original_owner)] succeeds and sqlite3 does not
      raise, the rows with the id of the record are deleted from the audit
      table and [changed] grows by one;
    - when [set_owner] succeeds and sqlite3 raises, the [except] branch adds
      one to [errors], the audit table is what it was, so the record stays,
      and the files are as [set_owner] has left them: the owner is set back
      although the record counts as an error;
    - when [set_owner] fails, [errors] grows by one and the world, audit
      table included, is what it was. *)
Theorem revert_item_outcome (w : World) (records : list ChangeRecord)
    (k : nat) (record : ChangeRecord) :
  records !! k = Some record →
  let before := state_after revert_item records k w in
  let after := state_after revert_item records (S k) w in
  let attempt :=
    set_owner before.1 (rec_path record) (rec_original_owner record) in
  (attempt.2.1 = true → sqlite3_raises before.1 = false →
     rows (database after.1) =
       filter (λ r, rec_id r ≠ rec_id record) (rows (database before.1))
     ∧ (∀ r, r ∈ rows (database after.1) → rec_id r ≠ rec_id record)
     ∧ inodes after.1 = inodes attempt.1
     ∧ changed after.2 = S (changed before.2)
     ∧ unchanged after.2 = unchanged before.2
     ∧ errors after.2 = errors before.2)
  ∧ (attempt.2.1 = true → sqlite3_raises before.1 = true →
     errors after.2 = S (errors before.2)
     ∧ changed after.2 = changed before.2
     ∧ unchanged after.2 = unchanged before.2
     ∧ database after.1 = database before.1
     ∧ inodes after.1 = inodes attempt.1)
  ∧ (attempt.2.1 = false →
     errors after.2 = S (errors before.2)
     ∧ changed after.2 = changed before.2
     ∧ unchanged after.2 = unchanged before.2
     ∧ database after.1 = database before.1
     ∧ after.1 = before.1).
Proof.
  intros Hk before after attempt. subst after attempt.
  rewrite (state_after_S _ _ _ _ _ Hk). fold before.
  destruct before as [wk tk]. simpl. split_and!.
  - intros Hs Hok. rewrite (revert_item_success _ _ _ Hs). simpl.
    rewrite sqlite3_raises_set_owner, Hok. simpl.
    rewrite sqlite3_attempt_database, set_owner_database.
    split_and!; try done.
    + intros r Hr%list_elem_of_filter. tauto.
    + unfold sqlite3_attempt. by destruct (sqlite_errors _).
  - intros Hs Hraise. rewrite (revert_item_success _ _ _ Hs). simpl.
    rewrite sqlite3_raises_set_owner, Hraise. simpl.
    rewrite sqlite3_attempt_database, set_owner_database.
    split_and!; try done.
    unfold sqlite3_attempt. by destruct (sqlite_errors _).
  - intros Hs. rewrite (revert_item_failure _ _ _ Hs). simpl. done.
Qed.

(** ** The audit table *)





(** ** Signals on their way to the window *)

Lemma tallies_of_app o1 o2 : tallies_of (o1 ++ o2) = tallies_of o1 ++ tallies_of o2.
Proof. apply omap_app. Qed.

Lemma tallies_of_emit_progress idx total : tallies_of (emit_progress idx total) = [].
Proof. unfold emit_progress. by destruct (progress_due idx total). Qed.

Lemma tallies_of_for_each {X} (body : World → X → Tally → World * Tally * list Signal)
    total idx xs w t :
  (∀ w x t, tallies_of (body w x t).2 = []) →
  tallies_of (for_each body total idx xs w t).2 = [].
Proof.
  intros Hbody. revert idx w t.
  induction xs as [|x xs IH]; intros idx w t; simpl; [done|].
  specialize (Hbody w x t). destruct (body w x t) as [[w1 t1] o].
  specialize (IH (S idx) w1 t1).
  destruct (for_each body total (S idx) xs w1 t1) as [[w2 t2] o2].
  simpl in *. by rewrite !tallies_of_app, Hbody, tallies_of_emit_progress, IH.
Qed.

Lemma counters_deliver b g s :
  counters (deliver b g s) = default (counters g) (as_tally s).
Proof.
  destruct s; simpl; try done.
  - unfold update_progress. by case_match.
  - by destruct b.
Qed.

Lemma counters_foldl_deliver b out g :
  counters (foldl (deliver b) g out) = default (counters g) (last (tallies_of out)).
Proof.
  revert g. induction out as [|s out IH] using rev_ind; intros g; [done|].
  rewrite foldl_app. simpl. rewrite counters_deliver, IH.
  unfold tallies_of. rewrite omap_app. simpl.
  destruct (as_tally s) as [t|]; simpl.
  - by rewrite last_snoc.
  - by rewrite app_nil_r.
Qed.

Lemma join_insert_head {A} (traces : list (list A)) i s rest :
  traces !! i = Some (s :: rest) →
  mjoin traces ≡ₚ s :: mjoin (<[i := rest]> traces).
Proof.
  revert i. induction traces as [|tr traces IH]; intros [|i] Hi; simplify_eq/=.
  - done.
  - rewrite (IH _ Hi). by rewrite Permutation_middle.
Qed.

Lemma merge_signals_perm schedule traces :
  merge_signals schedule traces ≡ₚ mjoin traces.
Proof.
  revert traces. induction schedule as [|i schedule IH]; intros traces; simpl; [done|].
  destruct (traces !! i) as [[|s rest]|] eqn:Hi; try apply IH.
  rewrite IH. symmetry. by apply join_insert_head.
Qed.

(** ** The check worker *)

Lemma check_item_eq current_user w path t :
  check_item current_user w path t =
  (w, incr_unchanged t,
   [log_message ("Checked: " +:+ path +:+ " - Owner: " +:+ get_owner w path)]).
Proof. unfold check_item, check_try. by case_bool_decide. Qed.

Lemma check_for_each current_user total idx paths w t :
  (for_each (check_item current_user) total idx paths w t).1 =
  (w, MkTally (changed t) (unchanged t + length paths) (errors t)).
Proof.
  revert idx t. induction paths as [|p paths IH]; intros idx t; simpl.
  - destruct t. simpl. by rewrite Nat.add_0_r.
  - rewrite check_item_eq. specialize (IH (S idx) (incr_unchanged t)).
    destruct (for_each _ total (S idx) paths w (incr_unchanged t)) as [[w2 t2] o2].
    simpl in *. rewrite IH. do 2 f_equal. lia.
Qed.

Lemma check_worker_world w paths current_user :
  (OwnershipCheckWorker_run w paths current_user).1 = w.
Proof.
  unfold OwnershipCheckWorker_run.
  pose proof (check_for_each current_user (length paths) 1 paths w tally0) as H.
  destruct (for_each _ _ 1 paths w tally0) as [[w' t] o]. simpl in *. congruence.
Qed.

Lemma check_worker_tallies w paths current_user :
  tallies_of (OwnershipCheckWorker_run w paths current_user).2 =
  [MkTally 0 (length paths) 0].
Proof.
  unfold OwnershipCheckWorker_run.
  pose proof (check_for_each current_user (length paths) 1 paths w tally0) as H.
  pose proof (tallies_of_for_each (check_item current_user) (length paths) 1
                paths w tally0) as Ho.
  destruct (for_each _ _ 1 paths w tally0) as [[w' t] o]. simpl in *.
  rewrite tallies_of_app, Ho.
  - injection H as _ ->. done.
  - intros ???. by rewrite check_item_eq.
Qed.

Lemma check_workers_tallies w chunks current_user schedule :
  tallies_of (check_workers_signals w chunks current_user schedule)
  ≡ₚ (λ chunk, MkTally 0 (length chunk) 0) <$> chunks.
Proof.
  unfold check_workers_signals, tallies_of.
  rewrite merge_signals_perm. clear schedule.
  induction chunks as [|chunk chunks IH]; [done|].
  simpl. rewrite omap_app, IH.
  fold (tallies_of (OwnershipCheckWorker_run w chunk current_user).2).
  by rewrite check_worker_tallies.
Qed.

(** The counters the window shows after a check run: those of the worker whose
    [counters_update] is delivered last. *)
Lemma check_run_counters w g selected_files selected_folders current_user
    max_thread_count schedule chunks :
  selected_files ++ selected_folders ≠ [] →
  make_chunks max_thread_count
    (gather_all_paths w (selected_files ++ selected_folders)) = Return chunks →
  counters (check_ownership_info w g selected_files selected_folders
              current_user max_thread_count schedule)
  = default tally0
      (last (tallies_of (check_workers_signals w chunks current_user schedule))).
Proof.
  intros Hsel Hchunks. unfold check_ownership_info.
  destruct (selected_files ++ selected_folders) as [|p ps] eqn:E; [done|].
  rewrite Hchunks. by rewrite counters_foldl_deliver.
Qed.

Lemma check_run_counters_cases w g selected_files selected_folders current_user
    max_thread_count schedule chunks :
  selected_files ++ selected_folders ≠ [] →
  make_chunks max_thread_count
    (gather_all_paths w (selected_files ++ selected_folders)) = Return chunks →
  let shown := counters (check_ownership_info w g selected_files selected_folders
                           current_user max_thread_count schedule) in
  (chunks = [] ∧ shown = tally0)
  ∨ (∃ chunk, chunk ∈ chunks ∧ shown = MkTally 0 (length chunk) 0).
Proof.
  intros Hsel Hchunks shown. subst shown.
  rewrite (check_run_counters _ _ _ _ _ _ _ _ Hsel Hchunks).
  pose proof (check_workers_tallies w chunks current_user schedule) as Hperm.
  destruct (last _) as [t|] eqn:Hlast; simpl.
  - right. apply last_Some in Hlast as [l' Hl'].
    assert (t ∈ (λ chunk, MkTally 0 (length chunk) 0) <$> chunks) as Hin.
    { rewrite <- Hperm, Hl'. set_solver. }
    apply list_elem_of_fmap in Hin as (chunk & -> & ?). eauto.
  - left. apply last_None in Hlast. rewrite Hlast in Hperm.
    apply Permutation_nil_l in Hperm. symmetry in Hperm.
    apply fmap_nil_inv in Hperm. done.
Qed.


(** ** Strings *)

Lemma append_cons c s t : String c s +:+ t = String c (s +:+ t).
Proof. done. Qed.

Lemma append_empty_l t : "" +:+ t = t.
Proof. done. Qed.

Lemma append_empty_r s : s +:+ "" = s.
Proof. induction s as [|c s IH]; [done|]. by rewrite append_cons, IH. Qed.

Lemma append_assoc s t u : (s +:+ t) +:+ u = s +:+ (t +:+ u).
Proof. induction s as [|c s IH]; [done|]. by rewrite !append_cons, IH. Qed.

Lemma append_length s t :
  String.length (s +:+ t) = String.length s + String.length t.
Proof. induction s as [|c s IH]; [done|]. rewrite append_cons. simpl. by rewrite IH. Qed.

Lemma has_sep_append s t : has_sep (s +:+ t) = has_sep s || has_sep t.
Proof.
  induction s as [|c s IH]; [done|]. rewrite append_cons. simpl.
  by rewrite IH, orb_assoc.
Qed.

Lemma simple_name_spec s :
  simple_name s = true ↔ s ≠ "" ∧ has_sep s = false.
Proof.
  unfold simple_name. rewrite andb_true_iff, !negb_true_iff, bool_decide_eq_false.
  done.
Qed.

Lemma simple_starts s : simple_name s = true → starts_with_sep s = false.
Proof.
  intros [_ Hs]%simple_name_spec. destruct s as [|c s]; [done|].
  simpl in *. by apply orb_false_iff in Hs as [-> _].
Qed.

Lemma ends_with_sep_has_sep s : ends_with_sep s = true → has_sep s = true.
Proof.
  induction s as [|c s IH]; [done|]. simpl. destruct s as [|d s].
  - intros ->. done.
  - intros H. rewrite (IH H). by rewrite orb_true_r.
Qed.

Lemma ends_with_sep_append s t : t ≠ "" → ends_with_sep (s +:+ t) = ends_with_sep t.
Proof.
  intros Ht. induction s as [|c s IH]; [done|]. rewrite append_cons. simpl.
  destruct (s +:+ t) as [|d u] eqn:E; [|done].
  destruct s; [|done]. by rewrite append_empty_l in E.
Qed.

Lemma os_path_join_rel a name :
  starts_with_sep name = false → os_path_join a name = dir_prefix a +:+ name.
Proof.
  intros Hn. unfold os_path_join, dir_prefix. rewrite Hn.
  destruct (bool_decide (a = "") || ends_with_sep a); [done|].
  by rewrite append_assoc.
Qed.

Lemma os_path_join_simple a name :
  simple_name name = true → os_path_join a name = dir_prefix a +:+ name.
Proof. intros H. by apply os_path_join_rel, simple_starts. Qed.

Lemma append_not_empty s t : t ≠ "" → s +:+ t ≠ "".
Proof. intros Ht. destruct s; [done|]. by rewrite append_cons. Qed.

Lemma dir_prefix_join a name :
  simple_name name = true →
  dir_prefix (os_path_join a name) = dir_prefix a +:+ name +:+ "/".
Proof.
  intros Hs. rewrite (os_path_join_simple _ _ Hs).
  apply simple_name_spec in Hs as [Hne Hsep].
  unfold dir_prefix at 1.
  rewrite bool_decide_eq_false_2 by by apply append_not_empty.
  rewrite ends_with_sep_append by done.
  destruct (ends_with_sep name) eqn:E.
  - apply ends_with_sep_has_sep in E. congruence.
  - simpl. by rewrite append_assoc.
Qed.

Lemma sep_append x : "/" +:+ x = String "/"%char x.
Proof. done. Qed.

(** Two names without separator that are followed by a separator in the same
    string are the same name. *)
Lemma first_sep_unique a b x y :
  has_sep a = false → has_sep b = false →
  a +:+ "/" +:+ x = b +:+ "/" +:+ y → a = b ∧ x = y.
Proof.
  revert b. induction a as [|c a IH]; intros [|d b] Ha Hb Heq.
  - rewrite !append_empty_l, !sep_append in Heq. by simplify_eq.
  - rewrite append_empty_l, append_cons, sep_append in Heq.
    injection Heq as <- _. simpl in Hb. done.
  - rewrite append_empty_l, append_cons, sep_append in Heq.
    injection Heq as -> _. simpl in Ha. done.
  - rewrite !append_cons in Heq. simplify_eq/=.
    apply orb_false_iff in Ha as [_ Ha]. apply orb_false_iff in Hb as [_ Hb].
    destruct (IH b Ha Hb ltac:(done)) as [-> ->]. done.
Qed.

Lemma is_prefix_append p s : is_prefix p (p +:+ s) = true.
Proof.
  induction p as [|c p IH]; [done|]. rewrite append_cons. simpl.
  by rewrite bool_decide_eq_true_2, IH.
Qed.

Lemma is_prefix_spec p s : is_prefix p s = true ↔ ∃ r, s = p +:+ r.
Proof.
  split.
  - revert s. induction p as [|c p IH]; intros s H.
    + by exists s.
    + destruct s as [|d s]; [done|]. simpl in H.
      apply andb_true_iff in H as [->%bool_decide_eq_true H].
      destruct (IH _ H) as [r ->]. by exists r.
  - intros [r ->]. apply is_prefix_append.
Qed.

(** Two prefixes of one string: one is a prefix of the other. *)
Lemma prefixes_comparable p1 r1 p2 r2 :
  p1 +:+ r1 = p2 +:+ r2 → is_prefix p1 p2 = true ∨ is_prefix p2 p1 = true.
Proof.
  revert p2. induction p1 as [|c p1 IH]; intros [|d p2] H; simpl; auto.
  rewrite !append_cons in H. simplify_eq.
  rewrite !bool_decide_eq_true_2 by done. simpl. eauto.
Qed.

Lemma is_prefix_trans p q s :
  is_prefix p q = true → is_prefix q s = true → is_prefix p s = true.
Proof.
  intros [r ->]%is_prefix_spec [r' ->]%is_prefix_spec.
  rewrite append_assoc. apply is_prefix_append.
Qed.

Lemma dir_prefix_cases a : dir_prefix a = a ∨ dir_prefix a = a +:+ "/".
Proof. unfold dir_prefix. destruct (_ || _); auto. Qed.

Lemma is_prefix_snoc_sep p s :
  is_prefix p (s +:+ "/") = true → is_prefix p s = true ∨ p = s +:+ "/".
Proof.
  revert s. induction p as [|c p IH]; intros s H; [by left|].
  destruct s as [|d s].
  - rewrite append_empty_l in H. simpl in H.
    apply andb_true_iff in H as [->%bool_decide_eq_true H].
    destruct p; [by right|done].
  - rewrite append_cons in H. simpl in H.
    apply andb_true_iff in H as [->%bool_decide_eq_true H].
    destruct (IH _ H) as [Hp| ->].
    + left. simpl. by rewrite bool_decide_eq_true_2.
    + right. done.
Qed.

(** ** Trees *)

(** Induction on a tree with the hypothesis for every entry of a directory. *)
Lemma node_ind_entries (P : node → Prop) :
  P File → P Other →
  (∀ listable entries, Forall (λ e, P e.2) entries → P (Dir listable entries)) →
  ∀ n, P n.
Proof.
  intros HF HO HD. fix IH 1. intros [| |listable entries]; [done..|].
  apply HD. induction entries as [|[name child] es IHes]; constructor; [|done].
  apply IH.
Qed.

Lemma os_walk_Dir top entries :
  os_walk top (Dir true entries) =
  (top, dirs_of entries, nondirs_of entries) :: (entries ≫= walk_child top).
Proof.
  simpl. f_equal. induction entries as [|[name child] es IH]; [done|].
  rewrite bind_cons, IH. done.
Qed.

Lemma rel_entries_Dir entries :
  rel_entries (Dir true entries) =
  dirs_of entries ++ nondirs_of entries ++ (entries ≫= rel_child).
Proof.
  simpl. do 2 f_equal. induction entries as [|[name child] es IH]; [done|].
  rewrite bind_cons, IH. done.
Qed.

Lemma wf_node_Dir listable entries :
  wf_node (Dir listable entries) = true ↔
  Forall (λ e, simple_name e.1 = true) entries
  ∧ NoDup entries.*1
  ∧ Forall (λ e, wf_node e.2 = true) entries.
Proof.
  simpl. rewrite !andb_true_iff, bool_decide_eq_true.
  assert (forallb simple_name entries.*1 = true
          ↔ Forall (λ e, simple_name e.1 = true) entries) as ->.
  { induction entries as [|[name child] es IH]; simpl.
    - split; [constructor|done].
    - rewrite andb_true_iff, IH, Forall_cons. done. }
  assert ((fix wf_all (es : list (string * node)) : bool :=
             match es with
             | [] => true
             | (_, child) :: es' => wf_node child && wf_all es'
             end) entries = true
          ↔ Forall (λ e, wf_node e.2 = true) entries) as ->.
  { induction entries as [|[name child] es IH].
    - split; [constructor|done].
    - rewrite andb_true_iff, IH, Forall_cons. done. }
  tauto.
Qed.

Lemma names_of_entries entries name :
  name ∈ dirs_of entries ++ nondirs_of entries ↔ name ∈ entries.*1.
Proof.
  unfold dirs_of, nondirs_of. rewrite <- fmap_app.
  by rewrite (filter_app_complement (λ e : string * node, is_dir_node e.2) entries).
Qed.

Lemma names_of_entries_NoDup entries :
  NoDup entries.*1 → NoDup (dirs_of entries ++ nondirs_of entries).
Proof.
  unfold dirs_of, nondirs_of. rewrite <- fmap_app.
  by rewrite (filter_app_complement (λ e : string * node, is_dir_node e.2) entries).
Qed.

Lemma entry_unique (entries : list (string * node)) name c1 c2 :
  NoDup entries.*1 → (name, c1) ∈ entries → (name, c2) ∈ entries → c1 = c2.
Proof.
  induction entries as [|[n c] es IH]; [by intros _ ?%elem_of_nil|].
  rewrite fmap_cons, NoDup_cons. simpl. intros [Hn Hes].
  rewrite !elem_of_cons. intros [?|H1] [?|H2]; simplify_eq; auto.
  - destruct Hn. apply list_elem_of_fmap. by exists (n, c2).
  - destruct Hn. apply list_elem_of_fmap. by exists (n, c1).
Qed.

(** What the loop over [os.walk] collects, through the relative entries. *)
Lemma walk_collects_rel_entries n top :
  wf_node n = true →
  os_walk top n ≫= walk_entries = (λ r, dir_prefix top +:+ r) <$> rel_entries n.
Proof.
  revert top. induction n as [| |listable entries IH] using node_ind_entries;
    intros top Hwf; [done..|].
  destruct listable; [|done].
  apply wf_node_Dir in Hwf as (Hsimple & _ & Hwf).
  rewrite os_walk_Dir, rel_entries_Dir, bind_cons, !fmap_app.
  unfold walk_entries at 1. rewrite <- app_assoc.
  assert (∀ names : list string, names ⊆ entries.*1 →
            os_path_join top <$> names = (λ r, dir_prefix top +:+ r) <$> names)
    as Hjoin.
  { intros names Hsub. apply list_fmap_ext. intros i name Hi.
    apply os_path_join_simple.
    apply list_elem_of_lookup_2, Hsub, list_elem_of_fmap in Hi as ([n' c] & -> & Hin).
    by apply (proj1 (Forall_forall _ _) Hsimple _ Hin). }
  rewrite !Hjoin.
  2:{ intros x Hx. apply names_of_entries, elem_of_app. by right. }
  2:{ intros x Hx. apply names_of_entries, elem_of_app. by left. }
  do 2 f_equal.
  clear Hjoin. induction entries as [|[name child] es IHes]; [done|].
  apply Forall_cons in IH as [IHc IH]. apply Forall_cons in Hwf as [Hwfc Hwf].
  apply Forall_cons in Hsimple as [Hname Hsimple].
  rewrite !bind_cons, bind_app, fmap_app, (IHes IH Hsimple Hwf). f_equal.
  unfold walk_child, rel_child. simpl in *. destruct (is_dir_node child); [|done].
  rewrite (IHc _ Hwfc), <- list_fmap_compose. apply list_fmap_ext.
  intros _ r _. simpl. rewrite (dir_prefix_join _ _ Hname).
  by rewrite !append_assoc.
Qed.

Lemma rel_child_elem e r :
  r ∈ rel_child e →
  ∃ r', r' ∈ rel_entries e.2 ∧ r = e.1 +:+ "/" +:+ r'.
Proof.
  unfold rel_child. destruct (is_dir_node e.2); [|by intros ?%elem_of_nil].
  intros (r' & -> & ?)%list_elem_of_fmap. eauto.
Qed.

Lemma rel_entries_not_empty n r :
  wf_node n = true → r ∈ rel_entries n → r ≠ "".
Proof.
  intros Hwf Hr. destruct n as [| |[] entries]; try by apply elem_of_nil in Hr.
  apply wf_node_Dir in Hwf as (Hsimple & _ & _).
  rewrite rel_entries_Dir, app_assoc, elem_of_app in Hr. destruct Hr as [Hr|Hr].
  - apply names_of_entries, list_elem_of_fmap in Hr as ([n c] & -> & Hin).
    apply (proj1 (Forall_forall _ _) Hsimple), simple_name_spec in Hin. tauto.
  - apply list_elem_of_bind in Hr as (e & (r' & _ & ->)%rel_child_elem & He).
    destruct (e.1); done.
Qed.

Lemma rel_entries_NoDup n : wf_node n = true → NoDup (rel_entries n).
Proof.
  induction n as [| |listable entries IH] using node_ind_entries;
    intros Hwf; [constructor..|].
  destruct listable; [|constructor].
  apply wf_node_Dir in Hwf as (Hsimple & Hnodup & Hwf).
  assert (∀ e, e ∈ entries → has_sep e.1 = false) as Hnosep.
  { intros e He. apply (proj1 (Forall_forall _ _) Hsimple), simple_name_spec in He.
    tauto. }
  rewrite rel_entries_Dir, app_assoc. apply NoDup_app. split_and!.
  - by apply names_of_entries_NoDup.
  - intros r Hr (e & (r' & _ & ->)%rel_child_elem & He)%list_elem_of_bind.
    apply names_of_entries, list_elem_of_fmap in Hr as (e' & Heq & He').
    apply Hnosep in He'. rewrite <- Heq, !has_sep_append in He'.
    simpl in He'. by rewrite orb_true_r in He'.
  - apply NoDup_bind.
    + intros e1 e2 r He1 He2 (r1 & _ & ->)%rel_child_elem
        (r2 & _ & Heq)%rel_child_elem.
      apply first_sep_unique in Heq as [Hname _]; [|by apply Hnosep..].
      destruct e1 as [n1 c1], e2 as [n2 c2]. simpl in *. subst n2.
      by rewrite (entry_unique entries n1 c1 c2).
    + intros e He. unfold rel_child. destruct (is_dir_node e.2); [|constructor].
      apply NoDup_fmap_2.
      * intros r1 r2 Heq. by apply (inj (String.app _)), (inj (String.app _)) in Heq.
      * apply (proj1 (Forall_forall _ _) IH _ He).
        apply (proj1 (Forall_forall _ _) Hwf _ He).
    + by apply NoDup_fmap_1 in Hnodup.
Qed.

(** ** Gathering *)

Lemma is_prefix_refl p : is_prefix p p = true.
Proof. rewrite <- (append_empty_r p) at 2. apply is_prefix_append. Qed.

Lemma append_sep_inj s t : s +:+ "/" = t +:+ "/" → s = t.
Proof.
  revert t. induction s as [|c s IH]; intros [|d t] H.
  - done.
  - rewrite append_empty_l, append_cons in H. injection H as _ H.
    destruct t; done.
  - rewrite append_empty_l, append_cons in H. injection H as _ H.
    destruct s; done.
  - rewrite !append_cons in H. injection H as -> H. f_equal. auto.
Qed.

Lemma dir_prefix_overlap r1 r2 :
  is_prefix (dir_prefix r1) (dir_prefix r2) = true →
  r1 = r2 ∨ is_prefix (dir_prefix r1) r2 = true
  ∨ is_prefix (dir_prefix r2) r1 = true.
Proof.
  intros H. destruct (dir_prefix_cases r2) as [E2|E2]; rewrite E2 in *; [auto|].
  apply is_prefix_snoc_sep in H as [H|H]; [auto|].
  destruct (dir_prefix_cases r1) as [E1|E1]; rewrite E1 in *.
  - right; right. rewrite H. apply is_prefix_refl.
  - left. by apply append_sep_inj.
Qed.

Lemma expand_selected_cases w path :
  (os_path_isfile w path = true ∧ expand_selected w path = [path])
  ∨ (∃ n, dentries w !! path = Some n ∧ os_path_isdir w path = true
          ∧ expand_selected w path = os_walk path n ≫= walk_entries)
  ∨ expand_selected w path = [].
Proof.
  unfold expand_selected, os_path_isfile, os_path_isdir.
  destruct (dentries w !! path) as [[| |listable entries]|]; eauto 10.
Qed.

(** C3 (amended).  When the selected paths are pairwise different and none of
    them lies inside a selected directory (and directories hold each name
    once), the gathered sequence has no duplicate. *)
Theorem gather_no_duplicates (w : World) (selected_paths : list string) :
  NoDup selected_paths →
  roots_apart w selected_paths →
  roots_wf w selected_paths →
  NoDup (gather_all_paths w selected_paths).
Proof.
  intros Hnodup Hapart Hwf. unfold gather_all_paths.
  apply NoDup_bind; [|..|done].
  - intros r1 r2 y Hr1 Hr2 Hy1 Hy2.
    destruct (decide (r1 = r2)) as [|Hne]; [done|exfalso].
    destruct (expand_selected_cases w r1) as [[_ E1]|[(n1&Hn1&Hd1&E1)|E1]];
      rewrite E1 in Hy1; [|..|by apply elem_of_nil in Hy1];
    destruct (expand_selected_cases w r2) as [[_ E2]|[(n2&Hn2&Hd2&E2)|E2]];
      rewrite E2 in Hy2; try by apply elem_of_nil in Hy2.
    + apply list_elem_of_singleton in Hy1, Hy2. congruence.
    + apply list_elem_of_singleton in Hy1. subst y.
      rewrite (walk_collects_rel_entries n2) in Hy2 by eauto.
      apply list_elem_of_fmap in Hy2 as (r & Heq & _).
      pose proof (Hapart r2 r1 Hr2 Hr1 ltac:(done) Hd2) as Hp.
      by rewrite Heq, is_prefix_append in Hp.
    + apply list_elem_of_singleton in Hy2. subst y.
      rewrite (walk_collects_rel_entries n1) in Hy1 by eauto.
      apply list_elem_of_fmap in Hy1 as (r & Heq & _).
      pose proof (Hapart r1 r2 Hr1 Hr2 Hne Hd1) as Hp.
      by rewrite Heq, is_prefix_append in Hp.
    + rewrite (walk_collects_rel_entries n1) in Hy1 by eauto.
      rewrite (walk_collects_rel_entries n2) in Hy2 by eauto.
      apply list_elem_of_fmap in Hy1 as (a & -> & _).
      apply list_elem_of_fmap in Hy2 as (b & Heq & _).
      pose proof (Hapart r1 r2 Hr1 Hr2 Hne Hd1) as Hp12.
      pose proof (Hapart r2 r1 Hr2 Hr1 ltac:(done) Hd2) as Hp21.
      destruct (prefixes_comparable _ _ _ _ Heq) as [H|H];
        apply dir_prefix_overlap in H as [?|[?|?]]; congruence.
  - intros r Hr.
    destruct (expand_selected_cases w r) as [[_ E]|[(n&Hn&Hd&E)|E]]; rewrite E.
    + apply NoDup_singleton.
    + rewrite (walk_collects_rel_entries n) by eauto.
      apply NoDup_fmap_2; [apply _|]. apply rel_entries_NoDup. eauto.
    + constructor.
Qed.

Lemma reaches_is_dir n names n' : reaches n names n' → is_dir_node n = true.
Proof. by destruct 1. Qed.

Lemma reaches_walk n names n' :
  reaches n names n' →
  ∀ top, foldl os_path_join top names ∈ os_walk top n ≫= walk_entries.
Proof.
  induction 1 as [entries name child Hin|entries name child names n' Hin Hr IH];
    intros top; rewrite os_walk_Dir, bind_cons, elem_of_app.
  - left. simpl. rewrite <- fmap_app. apply list_elem_of_fmap_2.
    apply names_of_entries, list_elem_of_fmap. by exists (name, child).
  - right. simpl.
    specialize (IH (os_path_join top name)).
    apply list_elem_of_bind in IH as (t & Ht & Hwalk).
    apply list_elem_of_bind. exists t. split; [done|].
    apply list_elem_of_bind. exists (name, child). split; [|done].
    unfold walk_child. simpl. by rewrite (reaches_is_dir _ _ _ Hr).
Qed.

(** C4 (amended).  For a selected directory, every file and directory that
    is reached from it through directories that can be listed is gathered,
    under the path obtained by joining the names to the root; the root
    directory itself is not among the paths that its expansion yields. *)
Theorem directory_entries_gathered (w : World) (selected_paths : list string)
    (root : string) (n0 : node) :
  root ∈ selected_paths →
  dentries w !! root = Some n0 →
  is_dir_node n0 = true →
  wf_node n0 = true →
  (∀ names n, reaches n0 names n →
     foldl os_path_join root names ∈ gather_all_paths w selected_paths)
  ∧ root ∉ expand_selected w root.
Proof.
  intros Hroot Hn0 Hdir Hwf.
  assert (expand_selected w root = os_walk root n0 ≫= walk_entries) as Hexp.
  { unfold expand_selected, os_path_isfile, os_path_isdir. rewrite Hn0.
    by destruct n0. }
  split.
  - intros names n Hreach. unfold gather_all_paths.
    apply list_elem_of_bind. exists root. split; [|done].
    rewrite Hexp. by apply (reaches_walk _ _ _ Hreach).
  - rewrite Hexp, (walk_collects_rel_entries _ _ Hwf).
    intros (r & Heq & Hr)%list_elem_of_fmap.
    apply (rel_entries_not_empty _ _ Hwf) in Hr.
    apply (f_equal String.length) in Heq. rewrite append_length in Heq.
    assert (String.length root ≤ String.length (dir_prefix root)).
    { destruct (dir_prefix_cases root) as [->| ->]; [done|].
      rewrite append_length. lia. }
    destruct r; [done|]. simpl in Heq. lia.
Qed.


(** ** Totals of the tallies of a run *)

Lemma tally_add_comm a b : tally_add a b = tally_add b a.
Proof. unfold tally_add. f_equal; lia. Qed.

Lemma tally_add_assoc a b c :
  tally_add a (tally_add b c) = tally_add (tally_add a b) c.
Proof. unfold tally_add. simpl. f_equal; lia. Qed.

Lemma tally_total_perm ts ts' : ts ≡ₚ ts' → tally_total ts = tally_total ts'.
Proof.
  induction 1 as [|t ts ts' _ IH|t t' ts|ts ts' ts'' _ IH1 _ IH2]; simpl.
  - done.
  - by rewrite IH.
  - by rewrite !tally_add_assoc, (tally_add_comm t t').
  - congruence.
Qed.

(** The tallies that the workers of a check run emit add up to the number of
    paths of the run, all of them under [unchanged]. *)
Lemma check_workers_tally_total w chunks current_user schedule :
  tally_total (tallies_of (check_workers_signals w chunks current_user schedule))
  = MkTally 0 (length (mjoin chunks)) 0.
Proof.
  rewrite (tally_total_perm _ _ (check_workers_tallies w chunks current_user schedule)).
  induction chunks as [|chunk chunks IH]; [done|].
  rewrite fmap_cons. change (mjoin (chunk :: chunks)) with (chunk ++ mjoin chunks).
  rewrite length_app. unfold tally_total in *. simpl foldr. by rewrite IH.
Qed.

(** ** Runs with one worker *)

Lemma change_item_counts_one current_user w item t :
  tally_sum (change_item current_user w item t).1.2 = S (tally_sum t).
Proof.
  unfold change_item, change_try.
  destruct (set_owner w (item_path item) current_user) as [w1 [[] error]];
    unfold tally_sum; simpl; lia.
Qed.

Lemma revert_item_counts_one w record t :
  tally_sum (revert_item w record t).1.2 = S (tally_sum t).
Proof.
  unfold revert_item, revert_try.
  destruct (set_owner w (rec_path record) (rec_original_owner record))
    as [w1 [[] error]]; [destruct (sqlite3_attempt w1) as [w2 [e|]]|];
    unfold tally_sum; simpl; lia.
Qed.

Lemma change_item_no_tally current_user w item t :
  tallies_of (change_item current_user w item t).2 = [].
Proof.
  unfold change_item, change_try.
  by destruct (set_owner w (item_path item) current_user) as [w1 [[] error]].
Qed.

Lemma revert_item_no_tally w record t :
  tallies_of (revert_item w record t).2 = [].
Proof.
  unfold revert_item, revert_try.
  destruct (set_owner w (rec_path record) (rec_original_owner record))
    as [w1 [[] error]]; [|done].
  by destruct (sqlite3_attempt w1) as [w2 [e|]].
Qed.

(** A change run emits one tally, and it counts every item once. *)
Lemma change_worker_tally w items current_user :
  ∃ t, tallies_of (OwnershipChangeWorker_run w items current_user).2 = [t]
       ∧ tally_sum t = length items.
Proof.
  unfold OwnershipChangeWorker_run.
  pose proof (for_each_tally_sum _ (change_item_counts_one current_user)
                (length items) 1 items w tally0) as Hsum.
  pose proof (tallies_of_for_each (change_item current_user) (length items) 1
                items w tally0 (change_item_no_tally current_user)) as Ho.
  destruct (for_each _ _ 1 items w tally0) as [[w' t] o]. simpl in *.
  exists t. rewrite tallies_of_app, Ho. by destruct t.
Qed.

(** A revert run emits one tally, and it counts every record once. *)
Lemma revert_worker_tally w records :
  ∃ t, tallies_of (RevertOwnershipWorker_run w records).2 = [t]
       ∧ tally_sum t = length records.
Proof.
  unfold RevertOwnershipWorker_run.
  pose proof (for_each_tally_sum _ revert_item_counts_one
                (length records) 1 records w tally0) as Hsum.
  pose proof (tallies_of_for_each revert_item (length records) 1
                records w tally0 revert_item_no_tally) as Ho.
  destruct (for_each _ _ 1 records w tally0) as [[w' t] o]. simpl in *.
  exists t. rewrite tallies_of_app, Ho. by destruct t.
Qed.

(** What a change worker and a revert worker emit at the end is the state
    after their last item. *)
Lemma change_worker_final w items current_user :
  let final := state_after (change_item current_user) items (length items) w in
  (OwnershipChangeWorker_run w items current_user).1 = final.1
  ∧ tallies_of (OwnershipChangeWorker_run w items current_user).2 = [final.2].
Proof.
  intros final. subst final. rewrite state_after_all.
  unfold OwnershipChangeWorker_run.
  pose proof (tallies_of_for_each (change_item current_user) (length items) 1
                items w tally0 (change_item_no_tally current_user)) as Ho.
  destruct (for_each _ _ 1 items w tally0) as [[w' t] o]. simpl in *.
  rewrite tallies_of_app, Ho. by destruct t.
Qed.

Lemma revert_worker_final w records :
  let final := state_after revert_item records (length records) w in
  (RevertOwnershipWorker_run w records).1 = final.1
  ∧ tallies_of (RevertOwnershipWorker_run w records).2 = [final.2].
Proof.
  intros final. subst final. rewrite state_after_all.
  unfold RevertOwnershipWorker_run.
  pose proof (tallies_of_for_each revert_item (length records) 1
                records w tally0 revert_item_no_tally) as Ho.
  destruct (for_each _ _ 1 records w tally0) as [[w' t] o]. simpl in *.
  rewrite tallies_of_app, Ho. by destruct t.
Qed.

(** With one worker the window ends on the counters of the whole run. *)
Lemma change_permissions_counters w g current_user :
  selected_items_of w g ≠ [] →
  tally_sum (counters (change_permissions w g current_user true).2)
  = length (selected_items_of w g).
Proof.
  intros Hsel. unfold change_permissions.
  destruct (selected_items_of w g) as [|it its] eqn:E; [done|]. simpl negb. cbv iota.
  destruct (change_worker_tally w (it :: its) current_user) as (t & Ht & Hsum).
  destruct (OwnershipChangeWorker_run w (it :: its) current_user) as [w' out].
  simpl in *. by rewrite counters_foldl_deliver, Ht.
Qed.

(** ** Check runs on a folder of files *)

Lemma chunks_of_folder_8 :
  length <$> chunks_of_run (folder_world 8) ["/srv/data"] 4 = [2; 2; 2; 2].
Proof. vm_compute. reflexivity. Qed.

Lemma check_run_counters_of_chunks w g selected_files selected_folders current_user
    max_thread_count schedule :
  selected_files ++ selected_folders ≠ [] →
  Z.min 4 max_thread_count ≠ 0%Z →
  let chunks := chunks_of_run w (selected_files ++ selected_folders) max_thread_count in
  let shown := counters (check_ownership_info w g selected_files selected_folders
                           current_user max_thread_count schedule) in
  (chunks = [] ∧ shown = tally0)
  ∨ (∃ n, n ∈ length <$> chunks ∧ shown = MkTally 0 n 0).
Proof.
  intros Hsel HT chunks shown. subst chunks shown. unfold chunks_of_run.
  destruct (make_chunks max_thread_count _) as [chunks|e] eqn:E.
  - destruct (check_run_counters_cases w g selected_files selected_folders
                current_user max_thread_count schedule chunks Hsel E)
      as [?|(chunk & Hin & ->)]; [by left|right].
    exists (length chunk). split; [|done]. by apply list_elem_of_fmap_2.
  - unfold make_chunks in E. by destruct (Z.eqb_spec (Z.min 4 max_thread_count) 0).
Qed.

(** C1.  The claim asks that [changed + unchanged + errors] be the number of
    items of the run, also when the run is cut into chunks.  A check run on a
    folder of eight files with four threads does not meet it: the eight paths
    go to four workers, and in whatever order their signals are delivered the
    counters of the window add up to 2. *)
Theorem check_run_counters_miss_paths (schedule : list nat) :
  length (gather_all_paths (folder_world 8) ["/srv/data"]) = 8
  ∧ tally_sum (counters (check_ownership_info (folder_world 8) fresh_gui
                           [] ["/srv/data"] "alice" 4 schedule)) = 2.
Proof.
  split; [by vm_compute|].
  destruct (check_run_counters_of_chunks (folder_world 8) fresh_gui []
              ["/srv/data"] "alice" 4 schedule) as [[Hnil _]|(n & Hn & ->)];
    [done|done| |].
  - apply (f_equal (fmap length)) in Hnil. simpl app in Hnil.
    by rewrite chunks_of_folder_8 in Hnil.
  - simpl app in Hn. rewrite chunks_of_folder_8 in Hn.
    repeat (apply elem_of_cons in Hn as [->|Hn]; [done|]).
    by apply elem_of_nil in Hn.
Qed.

(** C2.  The claim asks that the counters of a run be the sum of the tallies
    of its chunks.  In the check run on a folder of eight files with four
    threads the tallies that the workers emit add up to (0, 8, 0), while the
    window, in whatever order the signals are delivered, ends on (0, 2, 0), the
    tally of a single chunk. *)
Theorem check_run_shows_one_chunk (schedule : list nat) :
  let w := folder_world 8 in
  let chunks := chunks_of_run w ["/srv/data"] 4 in
  tally_total (tallies_of (check_workers_signals w chunks "alice" schedule))
    = MkTally 0 8 0
  ∧ counters (check_ownership_info w fresh_gui [] ["/srv/data"] "alice" 4 schedule)
    = MkTally 0 2 0.
Proof.
  intros w chunks. subst w chunks. split.
  - rewrite check_workers_tally_total. by vm_compute.
  - destruct (check_run_counters_of_chunks (folder_world 8) fresh_gui []
              ["/srv/data"] "alice" 4 schedule) as [[Hnil _]|(n & Hn & ->)];
      [done|done| |].
    + apply (f_equal (fmap length)) in Hnil. simpl app in Hnil.
      by rewrite chunks_of_folder_8 in Hnil.
    + simpl app in Hn. rewrite chunks_of_folder_8 in Hn.
      repeat (apply elem_of_cons in Hn as [->|Hn]; [done|]).
      by apply elem_of_nil in Hn.
Qed.

Lemma emit_progress_spec idx total :
  emit_progress idx total =
  if decide (idx mod 500 = 0 ∨ idx = total)
  then [progress_update (progress_percent idx total)] else [].
Proof.
  unfold emit_progress, progress_due.
  destruct (Nat.eqb_spec (idx mod 500) 0), (Nat.eqb_spec idx total);
    case_decide; simpl; tauto.
Qed.

Local Arguments Nat.modulo : simpl never.

(** The progress updates of a check worker: one after every 500th path and
    one after the last path, each with the percentage of the worker's own
    paths. *)
Lemma check_for_each_progress current_user total d paths w t :
  progress_history d (for_each (check_item current_user) total (S d) paths w t).2
  = (λ i, (i, progress_percent i total))
      <$> filter (λ i, i mod 500 = 0 ∨ i = total) (seq (S d) (length paths)).
Proof.
  revert d t. induction paths as [|p paths IH]; intros d t; [done|].
  simpl. rewrite check_item_eq.
  specialize (IH (S d) (incr_unchanged t)).
  destruct (for_each _ total (S (S d)) paths w (incr_unchanged t)) as [[w2 t2] o2].
  simpl in *. rewrite emit_progress_spec, filter_cons.
  destruct (decide (S d mod 500 = 0 ∨ S d = total)); simpl; by rewrite IH.
Qed.

Lemma progress_history_tail d out c u e m :
  progress_history d (out ++ [counters_update c u e; status_update m])
  = progress_history d out.
Proof.
  revert d. induction out as [|s out IH]; intros d; [done|].
  destruct s; simpl; by rewrite ?IH.
Qed.

(** X19.  A check worker emits a progress update after every 500th path and
    after its last path, and at no other point; the value is
    [int((idx / total) * 100)] over the worker's own paths. *)
Lemma check_worker_progress w paths current_user :
  progress_history 0 (OwnershipCheckWorker_run w paths current_user).2
  = (λ i, (i, progress_percent i (length paths)))
      <$> filter (λ i, i mod 500 = 0 ∨ i = length paths) (seq 1 (length paths)).
Proof.
  unfold OwnershipCheckWorker_run.
  pose proof (check_for_each_progress current_user (length paths) 0 paths w tally0)
    as H.
  destruct (for_each _ _ 1 paths w tally0) as [[w' t] o]. simpl in *.
  by rewrite progress_history_tail.
Qed.

(** C9.  Each worker emits a progress value after every 500th item and after
    its last item, computed from its own chunk.  The claim asks for the
    percentage of all items of the run, never decreasing.  With the workers
    served one after the other: on a folder of two files the window receives
    100 when one of the two files is checked; on a folder of 2004 files it
    receives 99, 100, 99, 100, 99, 100, 99, 100.  Each pair below is (items
    checked so far, value received). *)
Theorem check_progress_is_per_chunk :
  progress_history 0
    (check_workers_signals (folder_world 2)
       (chunks_of_run (folder_world 2) ["/srv/data"] 4) "alice" [])
  = [(1, 100%Z); (2, 100%Z)]
  ∧ length (gather_all_paths (folder_world 2004) ["/srv/data"]) = 2004
  ∧ progress_history 0
      (check_workers_signals (folder_world 2004)
         (chunks_of_run (folder_world 2004) ["/srv/data"] 4) "alice" [])
    = [(500, 99%Z); (501, 100%Z); (1001, 99%Z); (1002, 100%Z);
       (1502, 99%Z); (1503, 100%Z); (2003, 99%Z); (2004, 100%Z)].
Proof. split_and!; vm_compute; reflexivity. Qed.

(** ** [get_owner] and the check run *)

Lemma get_owner_unknown w path :
  owner_lookup_fails w path = true → get_owner w path = "Unknown".
Proof.
  unfold owner_lookup_fails, get_owner.
  destruct (os_stat w path) as [st|]; [|done].
  by destruct (getpwuid w (st_uid st)).
Qed.

Lemma check_for_each_logs current_user total idx paths w t path :
  path ∈ paths →
  log_message ("Checked: " +:+ path +:+ " - Owner: " +:+ get_owner w path)
  ∈ (for_each (check_item current_user) total idx paths w t).2.
Proof.
  revert idx t. induction paths as [|p paths IH]; intros idx t Hin;
    [by apply elem_of_nil in Hin|].
  simpl. rewrite check_item_eq.
  destruct (for_each _ total (S idx) paths w (incr_unchanged t)) as [[w2 t2] o2] eqn:E.
  simpl. apply elem_of_cons in Hin as [->|Hin]; [by left|].
  right. apply elem_of_app. right.
  specialize (IH (S idx) (incr_unchanged t) Hin). by rewrite E in IH.
Qed.

(** C10.  [get_owner] is a total function, and whenever the lookup of the
    owner fails it answers ["Unknown"].  So in a check run that starts (some
    path is selected) the window ends with [errors] at 0; every worker emits
    the tally (0, number of its paths, 0), and a path whose owner cannot be
    looked up is logged with the owner ["Unknown"] and counted with the
    others under [unchanged]. *)
Theorem check_run_counts_no_error (w : World) (g : Gui)
    (selected_files selected_folders : list string) (current_user : string)
    (max_thread_count : Z) (schedule : list nat) :
  selected_files ++ selected_folders ≠ [] →
  errors_label (check_ownership_info w g selected_files selected_folders
                  current_user max_thread_count schedule) = 0
  ∧ (∀ path, owner_lookup_fails w path = true → get_owner w path = "Unknown")
  ∧ (∀ paths,
       tallies_of (OwnershipCheckWorker_run w paths current_user).2
         = [MkTally 0 (length paths) 0]
       ∧ ∀ path, path ∈ paths → owner_lookup_fails w path = true →
           log_message ("Checked: " +:+ path +:+ " - Owner: Unknown")
           ∈ (OwnershipCheckWorker_run w paths current_user).2).
Proof.
  intros Hsel. split_and!.
  - change (errors (counters (check_ownership_info w g selected_files
              selected_folders current_user max_thread_count schedule)) = 0).
    destruct (make_chunks max_thread_count
                (gather_all_paths w (selected_files ++ selected_folders)))
      as [chunks|e] eqn:E.
    + destruct (check_run_counters_cases w g selected_files selected_folders
                  current_user max_thread_count schedule chunks Hsel E)
        as [[_ ->]|(chunk & _ & ->)]; done.
    + unfold check_ownership_info.
      destruct (selected_files ++ selected_folders); [done|]. by rewrite E.
  - apply get_owner_unknown.
  - intros paths. split; [apply check_worker_tallies|].
    intros path Hin Hfail.
    pose proof (check_for_each_logs current_user (length paths) 1 paths w
                  tally0 path Hin) as Hlog.
    rewrite (get_owner_unknown _ _ Hfail) in Hlog.
    unfold OwnershipCheckWorker_run.
    destruct (for_each _ _ 1 paths w tally0) as [[w' t] o]. simpl in *.
    apply elem_of_app. by left.
Qed.

Lemma check_run_counts_no_error_witness :
  [] ++ ["/home/bob"] ≠ ([] : list string)
  ∧ errors_label (check_ownership_info home_world fresh_gui [] ["/home/bob"]
                    "alice" 4 []) = 0.
Proof.
  assert ([] ++ ["/home/bob"] ≠ ([] : list string)) as H by done.
  split; [exact H|].
  exact (proj1 (check_run_counts_no_error home_world fresh_gui [] ["/home/bob"]
                  "alice" 4 [] H)).
Defined.

Example check_of_missing_path :
  (OwnershipCheckWorker_run home_world ["/home/bob/gone"] "alice").2
  = [log_message "Checked: /home/bob/gone - Owner: Unknown";
     progress_update 100; counters_update 0 1 0;
     status_update "Ownership check completed."].
Proof. vm_compute. reflexivity. Qed.

(** ** Witnesses and counterexamples *)

Lemma change_failure_witness :
  let items := [MkItem "/home/bob/docs/cv.txt" "bob";
                MkItem "/home/bob/notes.txt" "bob"] in
  let before := state_after (change_item "alice") items 1 home_world in
  let after := state_after (change_item "alice") items 2 home_world in
  items !! 1 = Some (MkItem "/home/bob/notes.txt" "bob")
  ∧ (set_owner before.1 "/home/bob/notes.txt" "alice").2.1 = false
  ∧ errors after.2 = S (errors before.2)
  ∧ changed after.2 = changed before.2
  ∧ database after.1 = database before.1.
Proof.
  intros items before after.
  assert (items !! 1 = Some (MkItem "/home/bob/notes.txt" "bob")) as H1
    by reflexivity.
  assert ((set_owner before.1 "/home/bob/notes.txt" "alice").2.1 = false) as H2
    by (vm_compute; reflexivity).
  pose proof (change_failure_counts_one_error home_world "alice" items 1
                (MkItem "/home/bob/notes.txt" "bob") H1 H2)
    as (Herrors & Hchanged & _ & Hrows & _).
  split_and!; [exact H1|exact H2|exact Herrors|exact Hchanged|exact Hrows].
Defined.

Example changed_world_rows : rows (database changed_world) = [first_record].
Proof. vm_compute. reflexivity. Qed.

Example changed_world_listed :
  (get_all_changes changed_world).2 = [first_record]
  ∧ (get_all_changes (with_sqlite_errors changed_world
                        [Some "unable to open database file"])).2 = [].
Proof. split; vm_compute; reflexivity. Qed.

Lemma revert_item_outcome_witness :
  let records := [first_record] in
  let before := state_after revert_item records 0 changed_world in
  let after := state_after revert_item records 1 changed_world in
  records !! 0 = Some first_record
  ∧ (set_owner before.1 (rec_path first_record)
       (rec_original_owner first_record)).2.1 = true
  ∧ sqlite3_raises before.1 = false
  ∧ rows (database before.1) = [first_record]
  ∧ rows (database after.1) = []
  ∧ changed after.2 = 1.
Proof.
  intros records before after.
  assert (records !! 0 = Some first_record) as H1 by reflexivity.
  assert ((set_owner before.1 (rec_path first_record)
             (rec_original_owner first_record)).2.1 = true) as H2
    by (vm_compute; reflexivity).
  assert (sqlite3_raises before.1 = false) as H3 by (vm_compute; reflexivity).
  destruct (revert_item_outcome changed_world records 0 first_record H1)
    as [Hsuccess _].
  destruct (Hsuccess H2 H3) as (Hrows & _ & _ & Hchanged & _).
  split_and!; [exact H1|exact H2|exact H3|by vm_compute| |].
  - etrans; [exact Hrows|]. by vm_compute.
  - etrans; [exact Hchanged|]. by vm_compute.
Defined.

(** C6, as it is stated, fails: alice has taken [cv.txt] from bob (record 1)
    and the database is locked when the change is reverted.  [set_owner]
    succeeds and the file is bob's again, but the [DELETE] raises: the run
    reports one error and no change, and record 1 stays in the table. *)
Lemma revert_with_locked_database :
  let cv := "/home/bob/docs/cv.txt" in
  let w := with_sqlite_errors changed_world [Some "database is locked"] in
  let run := RevertOwnershipWorker_run w [first_record] in
  get_owner w cv = "alice"
  ∧ (set_owner w cv "bob").2.1 = true
  ∧ get_owner run.1 cv = "bob"
  ∧ tallies_of run.2 = [MkTally 0 0 1]
  ∧ rows (database run.1) = [first_record]
  ∧ run.2 = [log_message "Reverted ownership for /home/bob/docs/cv.txt to bob";
             log_message "Error reverting ownership for /home/bob/docs/cv.txt: database is locked";
             progress_update 100; counters_update 0 0 1;
             status_update "Reversion process completed.";
             ownership_change_finished].
Proof. vm_compute. done. Qed.



Lemma make_chunks_partition_witness :
  (1 ≤ 4)%Z
  ∧ ∃ chunks,
      make_chunks 4 (gather_all_paths (folder_world 9) ["/srv/data"])
        = Return chunks
      ∧ mjoin chunks = gather_all_paths (folder_world 9) ["/srv/data"].
Proof.
  assert (1 ≤ 4)%Z as H by lia.
  split; [exact H|].
  destruct (make_chunks_partition 4
              (gather_all_paths (folder_world 9) ["/srv/data"]) H)
    as (chunks & Hc & _ & Hj & _).
  exists chunks. by split.
Defined.

(** C8, as it is stated, fails: nine paths and four threads give five chunks,
    of 2, 2, 2, 2 and 1 paths. *)
Lemma nine_paths_five_chunks :
  length (gather_all_paths (folder_world 9) ["/srv/data"]) = 9
  ∧ length <$> chunks_of_run (folder_world 9) ["/srv/data"] 4 = [2; 2; 2; 2; 1]
  ∧ length (chunks_of_run (folder_world 9) ["/srv/data"] 4)
    ≠ Z.to_nat (Z.min 4 4).
Proof. split_and!; vm_compute; [done..|lia]. Qed.

(** C3, as it is stated, fails: with a folder and one of its sub-folders
    selected, the file of the sub-folder is gathered twice. *)
Lemma nested_roots_duplicate :
  NoDup ["/home/bob"; "/home/bob/docs"]
  ∧ gather_all_paths home_world ["/home/bob"; "/home/bob/docs"]
    = ["/home/bob/docs"; "/home/bob/private"; "/home/bob/notes.txt";
       "/home/bob/agent.sock"; "/home/bob/docs/cv.txt"; "/home/bob/docs/cv.txt"]
  ∧ ¬ NoDup (gather_all_paths home_world ["/home/bob"; "/home/bob/docs"]).
Proof.
  split_and!.
  - apply (bool_decide_unpack _). by vm_compute.
  - by vm_compute.
  - intros Hin. apply (bool_decide_pack _) in Hin. by vm_compute in Hin.
Qed.

Lemma gather_no_duplicates_witness :
  let selected := ["/home/bob/docs"; "/home/bob/notes.txt"] in
  NoDup selected
  ∧ roots_apart home_world selected
  ∧ roots_wf home_world selected
  ∧ NoDup (gather_all_paths home_world selected).
Proof.
  intros selected.
  assert (NoDup selected) as H1.
  { apply (bool_decide_unpack _). by vm_compute. }
  assert (roots_apart home_world selected) as H2.
  { intros r1 r2 Hr1 Hr2 Hne Hd.
    repeat (apply elem_of_cons in Hr1 as [->|Hr1]);
    repeat (apply elem_of_cons in Hr2 as [->|Hr2]);
    try (by apply elem_of_nil in Hr1); try (by apply elem_of_nil in Hr2);
    try done; by vm_compute. }
  assert (roots_wf home_world selected) as H3.
  { intros r n Hr Hn.
    repeat (apply elem_of_cons in Hr as [->|Hr]);
    try (by apply elem_of_nil in Hr);
    vm_compute in Hn; injection Hn as <-; by vm_compute. }
  split_and!; [exact H1|exact H2|exact H3|].
  exact (gather_no_duplicates home_world selected H1 H2 H3).
Defined.

(** C4, as it is stated, fails: the selected folder is not among the gathered
    paths. *)
Lemma root_directory_not_gathered :
  os_path_isdir home_world "/home/bob" = true
  ∧ gather_all_paths home_world ["/home/bob"]
    = ["/home/bob/docs"; "/home/bob/private"; "/home/bob/notes.txt";
       "/home/bob/agent.sock"; "/home/bob/docs/cv.txt"]
  ∧ "/home/bob" ∉ gather_all_paths home_world ["/home/bob"].
Proof.
  split_and!.
  - by vm_compute.
  - by vm_compute.
  - intros Hin. apply (bool_decide_pack _) in Hin. by vm_compute in Hin.
Qed.

Lemma directory_entries_gathered_witness :
  "/home/bob" ∈ ["/home/bob"]
  ∧ dentries home_world !! "/home/bob" = Some home_tree
  ∧ is_dir_node home_tree = true
  ∧ wf_node home_tree = true
  ∧ "/home/bob/docs/cv.txt" ∈ gather_all_paths home_world ["/home/bob"]
  ∧ "/home/bob" ∉ expand_selected home_world "/home/bob".
Proof.
  assert ("/home/bob" ∈ ["/home/bob"]) as H1 by apply list_elem_of_here.
  assert (dentries home_world !! "/home/bob" = Some home_tree) as H2
    by (vm_compute; reflexivity).
  assert (is_dir_node home_tree = true) as H3 by reflexivity.
  assert (wf_node home_tree = true) as H4 by (vm_compute; reflexivity).
  destruct (directory_entries_gathered home_world ["/home/bob"] "/home/bob"
              home_tree H1 H2 H3 H4) as [Hall Hroot].
  split_and!; try done.
  apply (Hall ["docs"; "cv.txt"] File).
  apply (reaches_below _ "docs" (Dir true [("cv.txt", File)])).
  - apply list_elem_of_here.
  - apply reaches_entry, list_elem_of_here.
Defined.

(** * Further properties

    ** The owner provider *)

Lemma getpwnam_Return w name e :
  getpwnam w name = Return e → pw_name e = name ∧ e ∈ passwd w.
Proof.
  unfold getpwnam. destruct (List.find _ (passwd w)) as [e'|] eqn:E; [|done].
  intros [= <-]. apply find_some in E as [Hin Hname].
  apply bool_decide_eq_true in Hname. by rewrite list_elem_of_In.
Qed.

Lemma getpwuid_Return w uid e :
  getpwuid w uid = Return e → pw_uid e = uid ∧ e ∈ passwd w.
Proof.
  unfold getpwuid. destruct (List.find _ (passwd w)) as [e'|] eqn:E; [|done].
  intros [= <-]. apply find_some in E as [Hin Huid].
  apply Nat.eqb_eq in Huid. by rewrite list_elem_of_In.
Qed.

Lemma getpwuid_of_member w e :
  e ∈ passwd w → ∃ e', getpwuid w (pw_uid e) = Return e'.
Proof.
  intros Hin. unfold getpwuid.
  destruct (List.find _ (passwd w)) as [e'|] eqn:E; [eauto|].
  apply list_elem_of_In in Hin.
  pose proof (find_none _ _ E e Hin) as H. simpl in H.
  by rewrite Nat.eqb_refl in H.
Qed.

Lemma getpwnam_of_member w e :
  e ∈ passwd w → ∃ e', getpwnam w (pw_name e) = Return e'.
Proof.
  intros Hin. unfold getpwnam.
  destruct (List.find _ (passwd w)) as [e'|] eqn:E; [eauto|].
  apply list_elem_of_In in Hin.
  pose proof (find_none _ _ E e Hin) as H. simpl in H.
  by rewrite bool_decide_eq_true_2 in H.
Qed.

Lemma fmap_NoDup_inj {A B} (f : A → B) (l : list A) x y :
  NoDup (f <$> l) → x ∈ l → y ∈ l → f x = f y → x = y.
Proof.
  induction l as [|a l IH]; [by intros _ ?%elem_of_nil|].
  rewrite fmap_cons, NoDup_cons. intros [Ha Hl].
  rewrite !elem_of_cons. intros [->|Hx] [->|Hy] Heq; auto.
  - destruct Ha. rewrite Heq. by apply list_elem_of_fmap_2.
  - destruct Ha. rewrite <- Heq. by apply list_elem_of_fmap_2.
Qed.

Lemma lookup_file_Some w path i :
  lookup_file w path = Some i
  ↔ links w !! path = Some i ∧ is_Some (inodes w !! i).
Proof.
  unfold lookup_file. destruct (links w !! path) as [j|].
  - case_bool_decide as Hj; split.
    + by intros [= <-].
    + by intros [[= <-] _].
    + done.
    + intros [[= <-] ?]. done.
  - split; [done|]. by intros [? _].
Qed.

(** What a successful [set_owner] leaves behind. *)
Lemma set_owner_success w path user :
  (set_owner w path user).2.1 = true →
  ∃ e i, getpwnam w user = Return e
         ∧ lookup_file w path = Some i
         ∧ (path ∉ chown_denied w)
         ∧ (set_owner w path user).1
           = with_inodes w (<[i := StatResult (pw_uid e) (pw_gid e)]> (inodes w)).
Proof.
  destruct (set_owner_cases w path user) as [[msg ->]|(e&i&?&?&?&->)]; [done|].
  intros _. by exists e, i.
Qed.

Lemma set_owner_succeeds w path user e i :
  getpwnam w user = Return e → lookup_file w path = Some i →
  path ∉ chown_denied w →
  set_owner w path user
  = (with_inodes w (<[i := StatResult (pw_uid e) (pw_gid e)]> (inodes w)),
     (true, "")).
Proof.
  intros He Hi Hden. unfold set_owner, os_chown. rewrite He, Hi.
  by rewrite bool_decide_eq_false_2.
Qed.

(** The owner that [get_owner] reports for a path that leads to a file. *)
Lemma get_owner_file w path i st :
  lookup_file w path = Some i → inodes w !! i = Some st →
  get_owner w path =
  match getpwuid w (st_uid st) with Return e => pw_name e | Raise _ => "Unknown" end.
Proof.
  intros Hi Hst. unfold get_owner, os_stat. rewrite Hi. simpl. by rewrite Hst.
Qed.

Lemma get_owner_no_file w path :
  lookup_file w path = None → get_owner w path = "Unknown".
Proof. intros Hi. unfold get_owner, os_stat. by rewrite Hi. Qed.

(** Writing the owner of a file that exists keeps the file of every path. *)
Lemma lookup_file_chown w i st path :
  is_Some (inodes w !! i) →
  lookup_file (with_inodes w (<[i := st]> (inodes w))) path = lookup_file w path.
Proof.
  intros Hi. unfold lookup_file. simpl.
  destruct (links w !! path) as [j|]; [|done].
  destruct (decide (j = i)) as [->|Hne].
  - rewrite lookup_insert_eq.
    by rewrite !bool_decide_eq_true_2 by eauto.
  - by rewrite lookup_insert_ne.
Qed.

(** X1.  When no two accounts share a uid, a [set_owner] that succeeds is
    seen by [get_owner]: the owner of the path is then the user that was
    set. *)
Theorem set_owner_then_get_owner (w : World) (path user : string) :
  NoDup (pw_uid <$> passwd w) →
  (set_owner w path user).2.1 = true →
  get_owner (set_owner w path user).1 path = user.
Proof.
  intros Huids (e & i & He & Hi & _ & ->)%set_owner_success.
  pose proof (proj1 (lookup_file_Some _ _ _) Hi) as [_ Hsome].
  rewrite (get_owner_file _ path i (StatResult (pw_uid e) (pw_gid e))).
  - simpl. apply getpwnam_Return in He as [<- Hin].
    destruct (getpwuid_of_member w e Hin) as [e' He'].
    change (getpwuid (with_inodes w _) (pw_uid e)) with (getpwuid w (pw_uid e)).
    rewrite He'. apply getpwuid_Return in He' as [Huid Hin'].
    by rewrite (fmap_NoDup_inj pw_uid (passwd w) e' e Huids Hin' Hin Huid).
  - by rewrite lookup_file_chown.
  - simpl. by rewrite lookup_insert_eq.
Qed.

Lemma set_owner_then_get_owner_witness :
  NoDup (pw_uid <$> passwd home_world)
  ∧ (set_owner home_world "/home/bob/docs/cv.txt" "alice").2.1 = true
  ∧ get_owner (set_owner home_world "/home/bob/docs/cv.txt" "alice").1
      "/home/bob/docs/cv.txt" = "alice".
Proof.
  assert (NoDup (pw_uid <$> passwd home_world)) as H1.
  { apply (bool_decide_unpack _). by vm_compute. }
  assert ((set_owner home_world "/home/bob/docs/cv.txt" "alice").2.1 = true)
    as H2 by (vm_compute; reflexivity).
  split_and!; [exact H1|exact H2|].
  exact (set_owner_then_get_owner home_world "/home/bob/docs/cv.txt" "alice" H1 H2).
Defined.

(** ** What a run leaves alone *)


Lemma same_names_refl w : same_names w w.
Proof. by repeat split. Qed.

Lemma same_names_trans w1 w2 w3 :
  same_names w1 w2 → same_names w2 w3 → same_names w1 w3.
Proof.
  unfold same_names. intros (?&?&?&?&?&H12) (?&?&?&?&?&H23).
  split_and!; try congruence. intros i. by rewrite H23, H12.
Qed.

Lemma same_names_lookup_file w w' path :
  same_names w w' → lookup_file w' path = lookup_file w path.
Proof.
  intros (_&Hl&_&_&_&Hi). unfold lookup_file. rewrite Hl.
  destruct (links w !! path) as [j|]; [|done].
  specialize (Hi j). do 2 case_bool_decide; tauto.
Qed.

Lemma same_names_files_of w w' paths :
  same_names w w' → files_of w' paths = files_of w paths.
Proof.
  intros H. unfold files_of. induction paths as [|q paths IH]; [done|].
  simpl. rewrite (same_names_lookup_file _ _ _ H).
  destruct (lookup_file w q); [f_equal|]; exact IH.
Qed.

Lemma same_names_getpwuid w w' uid :
  same_names w w' → getpwuid w' uid = getpwuid w uid.
Proof. intros (_&_&Hp&_). unfold getpwuid. by rewrite Hp. Qed.

Lemma same_names_getpwnam w w' name :
  same_names w w' → getpwnam w' name = getpwnam w name.
Proof. intros (_&_&Hp&_). unfold getpwnam. by rewrite Hp. Qed.

Lemma same_names_with_database w d : same_names w (with_database w d).
Proof. by repeat split. Qed.

Lemma same_names_sqlite3_attempt w : same_names w (sqlite3_attempt w).1.
Proof. unfold sqlite3_attempt. destruct (sqlite_errors w); by repeat split. Qed.

Lemma sqlite3_attempt_inodes w : inodes (sqlite3_attempt w).1 = inodes w.
Proof. unfold sqlite3_attempt. by destruct (sqlite_errors w). Qed.

Lemma same_names_record_change w path o c : same_names w (record_change w path o c).
Proof.
  unfold record_change. pose proof (same_names_sqlite3_attempt w) as H.
  destruct (sqlite3_attempt w) as [w1 [e|]]; simpl in *; [done|].
  eapply same_names_trans; [exact H|]. apply same_names_with_database.
Qed.

Lemma record_change_inodes w path o c : inodes (record_change w path o c) = inodes w.
Proof.
  unfold record_change. pose proof (sqlite3_attempt_inodes w) as H.
  by destruct (sqlite3_attempt w) as [w1 [e|]].
Qed.

Lemma same_names_set_owner w path user : same_names w (set_owner w path user).1.
Proof.
  destruct (set_owner_cases w path user) as [[msg ->]|(e&i&_&Hi&_&->)];
    [apply same_names_refl|].
  apply lookup_file_Some in Hi as [_ Hsome].
  split_and!; try done. intros j. simpl.
  destruct (decide (j = i)) as [->|Hne].
  - rewrite lookup_insert_eq. split; eauto.
  - by rewrite lookup_insert_ne.
Qed.

(** [set_owner] writes no other file than the one its path leads to. *)
Lemma set_owner_other_file w path user i :
  lookup_file w path ≠ Some i →
  inodes (set_owner w path user).1 !! i = inodes w !! i.
Proof.
  intros Hi.
  destruct (set_owner_cases w path user) as [[msg ->]|(e&j&_&Hj&_&->)]; [done|].
  simpl. rewrite lookup_insert_ne; [done|]. congruence.
Qed.

Lemma same_names_change_item current_user w item t :
  same_names w (change_item current_user w item t).1.1.
Proof.
  pose proof (same_names_set_owner w (item_path item) current_user) as H.
  destruct (set_owner w (item_path item) current_user).2.1 eqn:Hs.
  - rewrite (change_item_success _ _ _ _ Hs). simpl.
    eapply same_names_trans; [exact H|]. apply same_names_record_change.
  - rewrite (change_item_failure _ _ _ _ Hs). apply same_names_refl.
Qed.

Lemma revert_item_inodes w record t :
  inodes (revert_item w record t).1.1
  = inodes (set_owner w (rec_path record) (rec_original_owner record)).1.
Proof.
  destruct (set_owner w (rec_path record) (rec_original_owner record)).2.1 eqn:Hs.
  - rewrite (revert_item_success _ _ _ Hs). simpl.
    destruct (sqlite3_raises _); simpl; by rewrite sqlite3_attempt_inodes.
  - rewrite (revert_item_failure _ _ _ Hs). simpl.
    by rewrite (set_owner_failure _ _ _ Hs).
Qed.

Lemma change_item_inodes current_user w item t :
  inodes (change_item current_user w item t).1.1
  = inodes (set_owner w (item_path item) current_user).1.
Proof.
  destruct (set_owner w (item_path item) current_user).2.1 eqn:Hs.
  - rewrite (change_item_success _ _ _ _ Hs). simpl. apply record_change_inodes.
  - rewrite (change_item_failure _ _ _ _ Hs). simpl.
    by rewrite (set_owner_failure _ _ _ Hs).
Qed.

Lemma same_names_revert_item w record t :
  same_names w (revert_item w record t).1.1.
Proof.
  pose proof (same_names_set_owner w (rec_path record) (rec_original_owner record))
    as H.
  destruct (set_owner w (rec_path record) (rec_original_owner record)).2.1 eqn:Hs.
  - rewrite (revert_item_success _ _ _ Hs). simpl.
    eapply same_names_trans; [exact H|].
    destruct (sqlite3_raises _); simpl.
    + apply same_names_sqlite3_attempt.
    + eapply same_names_trans; [apply same_names_sqlite3_attempt|].
      apply same_names_with_database.
  - rewrite (revert_item_failure _ _ _ Hs). apply same_names_refl.
Qed.

Lemma for_each_same_names {X}
    (body : World → X → Tally → World * Tally * list Signal) total idx xs w t :
  (∀ w x t, same_names w (body w x t).1.1) →
  same_names w (for_each body total idx xs w t).1.1.
Proof.
  intros Hbody. revert idx w t.
  induction xs as [|x xs IH]; intros idx w t; simpl; [apply same_names_refl|].
  specialize (Hbody w x t). destruct (body w x t) as [[w1 t1] o].
  specialize (IH (S idx) w1 t1).
  destruct (for_each body total (S idx) xs w1 t1) as [[w2 t2] o2].
  simpl in *. by eapply same_names_trans.
Qed.

(** A loop whose body writes at most the file of its item leaves the files
    that no item leads to as they were. *)
Lemma for_each_other_files {X}
    (body : World → X → Tally → World * Tally * list Signal)
    (path_of : X → string) i total idx xs w t :
  (∀ w x t, same_names w (body w x t).1.1) →
  (∀ w x t, lookup_file w (path_of x) ≠ Some i →
            inodes (body w x t).1.1 !! i = inodes w !! i) →
  i ∉ files_of w (path_of <$> xs) →
  inodes (for_each body total idx xs w t).1.1 !! i = inodes w !! i.
Proof.
  intros Hnames Hbody. revert idx w t.
  induction xs as [|x xs IH]; intros idx w t Hi; simpl; [done|].
  assert (lookup_file w (path_of x) ≠ Some i) as Hx.
  { intros Hx. apply Hi. unfold files_of. simpl. rewrite Hx. by left. }
  specialize (Hbody w x t Hx). specialize (Hnames w x t).
  destruct (body w x t) as [[w1 t1] o]. simpl in *.
  assert (i ∉ files_of w1 (path_of <$> xs)) as Hi1.
  { rewrite (same_names_files_of _ _ _ Hnames). intros Hin. apply Hi.
    unfold files_of in *. simpl.
    destruct (lookup_file w (path_of x)); [by right|done]. }
  specialize (IH (S idx) w1 t1 Hi1).
  destruct (for_each body total (S idx) xs w1 t1) as [[w2 t2] o2].
  simpl in *. congruence.
Qed.

Lemma get_owner_same_file w w' q :
  same_names w w' →
  (∀ i, lookup_file w q = Some i → inodes w' !! i = inodes w !! i) →
  get_owner w' q = get_owner w q.
Proof.
  intros Hnames Hfile. unfold get_owner, os_stat.
  rewrite (same_names_lookup_file _ _ _ Hnames).
  destruct (lookup_file w q) as [i|]; [|done]. simpl.
  rewrite (Hfile i eq_refl). destruct (inodes w !! i) as [st|]; [|done].
  by rewrite (same_names_getpwuid _ _ _ Hnames).
Qed.

Lemma change_run_same_names w items current_user :
  same_names w (OwnershipChangeWorker_run w items current_user).1.
Proof.
  pose proof (for_each_same_names (change_item current_user) (length items) 1
                items w tally0 (same_names_change_item current_user)) as H.
  unfold OwnershipChangeWorker_run.
  by destruct (for_each _ _ 1 items w tally0) as [[w' t] o].
Qed.

Lemma revert_run_same_names w records :
  same_names w (RevertOwnershipWorker_run w records).1.
Proof.
  pose proof (for_each_same_names revert_item (length records) 1
                records w tally0 same_names_revert_item) as H.
  unfold RevertOwnershipWorker_run.
  by destruct (for_each _ _ 1 records w tally0) as [[w' t] o].
Qed.

Lemma change_run_other_files w items current_user i :
  i ∉ files_of w (item_path <$> items) →
  inodes (OwnershipChangeWorker_run w items current_user).1 !! i = inodes w !! i.
Proof.
  intros Hi.
  pose proof (for_each_other_files (change_item current_user) item_path i
                (length items) 1 items w tally0
                (same_names_change_item current_user)) as H.
  unfold OwnershipChangeWorker_run.
  destruct (for_each _ _ 1 items w tally0) as [[w' t] o]. simpl in *.
  apply H; [|done]. intros w0 x t0 Hx.
  rewrite change_item_inodes. by apply set_owner_other_file.
Qed.

Lemma revert_run_other_files w records i :
  i ∉ files_of w (rec_path <$> records) →
  inodes (RevertOwnershipWorker_run w records).1 !! i = inodes w !! i.
Proof.
  intros Hi.
  pose proof (for_each_other_files revert_item rec_path i
                (length records) 1 records w tally0
                same_names_revert_item) as H.
  unfold RevertOwnershipWorker_run.
  destruct (for_each _ _ 1 records w tally0) as [[w' t] o]. simpl in *.
  apply H; [|done]. intros w0 x t0 Hx.
  rewrite revert_item_inodes. by apply set_owner_other_file.
Qed.

(** X2.  A change run and a revert run keep the file that every path leads
    to, and they leave every file that none of their paths leads to as it
    was; so [get_owner] answers as before for every path that leads to such a
    file.  (A path that is not among the items but leads to the file of an
    item, such as a hard link, is not covered: its owner changes with the
    item.) *)
Theorem runs_leave_other_files (w : World) (items : list Item)
    (records : list ChangeRecord) (current_user : string) :
  let changed_files := files_of w (item_path <$> items) in
  let reverted_files := files_of w (rec_path <$> records) in
  let w1 := (OwnershipChangeWorker_run w items current_user).1 in
  let w2 := (RevertOwnershipWorker_run w records).1 in
  (∀ q, lookup_file w1 q = lookup_file w q ∧ lookup_file w2 q = lookup_file w q)
  ∧ (∀ i, i ∉ changed_files → inodes w1 !! i = inodes w !! i)
  ∧ (∀ i, i ∉ reverted_files → inodes w2 !! i = inodes w !! i)
  ∧ (∀ q, (∀ i, lookup_file w q = Some i → i ∉ changed_files) →
          get_owner w1 q = get_owner w q)
  ∧ (∀ q, (∀ i, lookup_file w q = Some i → i ∉ reverted_files) →
          get_owner w2 q = get_owner w q).
Proof.
  intros changed_files reverted_files w1 w2.
  pose proof (change_run_same_names w items current_user) as Hn1.
  pose proof (revert_run_same_names w records) as Hn2.
  split_and!.
  - intros q. split; by apply same_names_lookup_file.
  - intros i Hi. by apply change_run_other_files.
  - intros i Hi. by apply revert_run_other_files.
  - intros q Hq. apply get_owner_same_file; [done|].
    intros i Hi. apply change_run_other_files. by apply Hq.
  - intros q Hq. apply get_owner_same_file; [done|].
    intros i Hi. apply revert_run_other_files. by apply Hq.
Qed.

Lemma runs_leave_other_files_witness :
  let items := [MkItem "/home/bob/cv-link" "bob"] in
  let w1 := (OwnershipChangeWorker_run linked_world items "alice").1 in
  (∀ i, lookup_file linked_world "/home/bob/agent.sock" = Some i →
        i ∉ files_of linked_world (item_path <$> items))
  ∧ get_owner w1 "/home/bob/agent.sock"
    = get_owner linked_world "/home/bob/agent.sock".
Proof.
  intros items w1.
  assert (∀ i, lookup_file linked_world "/home/bob/agent.sock" = Some i →
               i ∉ files_of linked_world (item_path <$> items)) as H.
  { intros i Hi. vm_compute in Hi. injection Hi as <-.
    intros Hin. apply (bool_decide_pack _) in Hin. by vm_compute in Hin. }
  split; [exact H|].
  exact (proj1 (proj2 (proj2 (proj2
           (runs_leave_other_files linked_world items [] "alice"))))
           "/home/bob/agent.sock" H).
Defined.

(** A change through one name of a file is seen under its other names: the
    item is the link, and the owner of [cv.txt] changes with it. *)
Example change_through_link :
  let items := [MkItem "/home/bob/cv-link" "bob"] in
  let w1 := (OwnershipChangeWorker_run linked_world items "alice").1 in
  ("/home/bob/docs/cv.txt" ∉ item_path <$> items)
  ∧ get_owner linked_world "/home/bob/docs/cv.txt" = "bob"
  ∧ get_owner w1 "/home/bob/docs/cv.txt" = "alice"
  ∧ get_owner w1 "/home/bob/cv-link" = "alice".
Proof.
  split_and!; try (vm_compute; reflexivity).
  intros Hin. apply (bool_decide_pack _) in Hin. by vm_compute in Hin.
Qed.

(** ** An acting user that the account database does not know *)

Lemma set_owner_unknown_user w path user msg :
  getpwnam w user = Raise msg → set_owner w path user = (w, (false, msg)).
Proof. intros H. unfold set_owner. by rewrite H. Qed.

Lemma for_each_all_fail {X} (body : World → X → Tally → World * Tally * list Signal)
    total idx xs w t :
  (∀ x t, (body w x t).1 = (w, incr_errors t)) →
  (for_each body total idx xs w t).1
  = (w, MkTally (changed t) (unchanged t) (errors t + length xs)).
Proof.
  intros Hbody. revert idx t.
  induction xs as [|x xs IH]; intros idx t; simpl.
  - destruct t. simpl. by rewrite Nat.add_0_r.
  - specialize (Hbody x t). destruct (body w x t) as [[w1 t1] o].
    simpl in Hbody. injection Hbody as -> ->.
    specialize (IH (S idx) (incr_errors t)).
    destruct (for_each body total (S idx) xs w (incr_errors t)) as [[w2 t2] o2].
    simpl in *. rewrite IH. do 2 f_equal. lia.
Qed.

(** X9.  When the account database does not know the acting user (as when
    [get_current_user] answered ["Unknown"]), a change run changes nothing:
    the world is as before and every item is counted as an error. *)
Theorem change_run_of_unknown_user (w : World) (items : list Item)
    (current_user msg : string) :
  getpwnam w current_user = Raise msg →
  (OwnershipChangeWorker_run w items current_user).1 = w
  ∧ tallies_of (OwnershipChangeWorker_run w items current_user).2
    = [MkTally 0 0 (length items)].
Proof.
  intros Huser.
  assert (∀ x t, (change_item current_user w x t).1 = (w, incr_errors t)) as Hbody.
  { intros x t. apply change_item_failure.
    by rewrite (set_owner_unknown_user _ _ _ _ Huser). }
  pose proof (for_each_all_fail (change_item current_user) (length items) 1
                items w tally0 Hbody) as H.
  pose proof (tallies_of_for_each (change_item current_user) (length items) 1
                items w tally0 (change_item_no_tally current_user)) as Ho.
  unfold OwnershipChangeWorker_run.
  destruct (for_each _ _ 1 items w tally0) as [[w' t] o]. simpl in *.
  injection H as -> ->. split; [done|]. by rewrite tallies_of_app, Ho.
Qed.

Lemma change_run_of_unknown_user_witness :
  getpwnam home_world "Unknown"
  = Raise (String dquote
             ("getpwnam(): name not found: 'Unknown'" +:+ String dquote ""))
  ∧ (OwnershipChangeWorker_run home_world
       [MkItem "/home/bob/docs/cv.txt" "bob"] "Unknown").1 = home_world.
Proof.
  assert (getpwnam home_world "Unknown"
          = Raise (String dquote
                     ("getpwnam(): name not found: 'Unknown'"
                      +:+ String dquote ""))) as H
    by (vm_compute; reflexivity).
  split; [exact H|].
  exact (proj1 (change_run_of_unknown_user home_world
                  [MkItem "/home/bob/docs/cv.txt" "bob"] "Unknown" _ H)).
Defined.

(** ** The audit table *)


Lemma foldr_max_bound (l : list nat) x : x ∈ l → x ≤ foldr Nat.max 0 l.
Proof.
  induction l as [|a l IH]; [by intros ?%elem_of_nil|].
  rewrite elem_of_cons. simpl. intros [->|H]; [lia|]. specialize (IH H). lia.
Qed.

Lemma next_rowid_fresh d r : r ∈ rows d → rec_id r < next_rowid d.
Proof.
  intros Hr. unfold next_rowid.
  pose proof (foldr_max_bound (rec_id <$> rows d) (rec_id r)
                (list_elem_of_fmap_2 _ _ _ Hr)). lia.
Qed.

Lemma next_rowid_beyond d : sqlite_sequence d < next_rowid d.
Proof. unfold next_rowid. lia. Qed.

Lemma db_insert_wf d now path o c : db_wf d → db_wf (db_insert d now path o c).
Proof.
  intros [Hnd Hle]. unfold db_insert. split; simpl.
  - rewrite fmap_app. apply NoDup_app. split_and!; [done| |apply NoDup_singleton].
    intros i (r & -> & Hr)%list_elem_of_fmap Hi. simpl in Hi.
    apply list_elem_of_singleton in Hi.
    pose proof (next_rowid_fresh d r Hr). lia.
  - apply Forall_app. split.
    + eapply Forall_impl; [exact Hle|]. intros r Hr. simpl in *.
      pose proof (next_rowid_beyond d). lia.
    + by repeat constructor.
Qed.

Lemma db_delete_wf d i : db_wf d → db_wf (db_delete d i).
Proof.
  intros [Hnd Hle]. unfold db_delete. split; simpl.
  - apply (NoDup_fmap_2_strong rec_id).
    + intros r1 r2 [_ H1]%list_elem_of_filter [_ H2]%list_elem_of_filter Heq.
      by apply (fmap_NoDup_inj rec_id (rows d)).
    + apply NoDup_filter. by apply NoDup_fmap_1 in Hnd.
  - apply Forall_forall. intros r [_ Hr]%list_elem_of_filter.
    by apply (proj1 (Forall_forall _ _) Hle).
Qed.

Lemma record_change_wf w path o c :
  db_wf (database w) → db_wf (database (record_change w path o c)).
Proof.
  intros Hwf. rewrite record_change_database.
  destruct (sqlite3_raises w); [done|]. by apply db_insert_wf.
Qed.

Lemma change_item_wf current_user w item t :
  db_wf (database w) → db_wf (database (change_item current_user w item t).1.1).
Proof.
  intros Hwf. destruct (set_owner w (item_path item) current_user).2.1 eqn:Hs.
  - rewrite (change_item_success _ _ _ _ Hs). simpl.
    apply record_change_wf. by rewrite set_owner_database.
  - by rewrite (change_item_failure _ _ _ _ Hs).
Qed.

Lemma revert_item_database w record t :
  database (revert_item w record t).1.1 = database w
  ∨ database (revert_item w record t).1.1 = db_delete (database w) (rec_id record).
Proof.
  destruct (set_owner w (rec_path record) (rec_original_owner record)).2.1 eqn:Hs.
  - rewrite (revert_item_success _ _ _ Hs). simpl.
    destruct (sqlite3_raises _); simpl;
      rewrite sqlite3_attempt_database, set_owner_database; auto.
  - rewrite (revert_item_failure _ _ _ Hs). auto.
Qed.

Lemma revert_item_wf w record t :
  db_wf (database w) → db_wf (database (revert_item w record t).1.1).
Proof.
  intros Hwf. destruct (revert_item_database w record t) as [-> | ->]; [done|].
  by apply db_delete_wf.
Qed.

Lemma for_each_invariant {X} (body : World → X → Tally → World * Tally * list Signal)
    (P : World → Prop) total idx xs w t :
  (∀ w x t, P w → P (body w x t).1.1) →
  P w → P (for_each body total idx xs w t).1.1.
Proof.
  intros Hbody. revert idx w t.
  induction xs as [|x xs IH]; intros idx w t Hw; simpl; [done|].
  specialize (Hbody w x t Hw). destruct (body w x t) as [[w1 t1] o].
  specialize (IH (S idx) w1 t1 Hbody).
  by destruct (for_each body total (S idx) xs w1 t1) as [[w2 t2] o2].
Qed.

(** X3.  A change run and a revert run keep the ids of the audit table
    pairwise different and not beyond the [AUTOINCREMENT] counter. *)
Theorem runs_keep_ids_unique (w : World) (items : list Item)
    (records : list ChangeRecord) (current_user : string) :
  db_wf (database w) →
  db_wf (database (OwnershipChangeWorker_run w items current_user).1)
  ∧ db_wf (database (RevertOwnershipWorker_run w records).1).
Proof.
  intros Hwf. split.
  - pose proof (for_each_invariant (change_item current_user)
                  (λ w, db_wf (database w)) (length items) 1 items w tally0
                  (λ w x t, change_item_wf current_user w x t) Hwf) as H.
    unfold OwnershipChangeWorker_run.
    by destruct (for_each _ _ 1 items w tally0) as [[w' t] o].
  - pose proof (for_each_invariant revert_item
                  (λ w, db_wf (database w)) (length records) 1 records w tally0
                  (λ w x t, revert_item_wf w x t) Hwf) as H.
    unfold RevertOwnershipWorker_run.
    by destruct (for_each _ _ 1 records w tally0) as [[w' t] o].
Qed.

Lemma empty_table_wf : db_wf (Db [] 0).
Proof. split; constructor. Qed.

Lemma runs_keep_ids_unique_witness :
  db_wf (database home_world)
  ∧ db_wf (database (OwnershipChangeWorker_run home_world
                       [MkItem "/home/bob/docs/cv.txt" "bob"] "alice").1).
Proof.
  assert (db_wf (database home_world)) as H by exact empty_table_wf.
  split; [exact H|].
  exact (proj1 (runs_keep_ids_unique home_world
                  [MkItem "/home/bob/docs/cv.txt" "bob"] [] "alice" H)).
Defined.

(** X4.  The id of a deleted record is not given again: after the record is
    deleted, a newly recorded change and every other row have a different
    id. *)
Theorem deleted_id_is_not_reused (w : World) (record : ChangeRecord)
    (path original_owner current_owner : string) :
  db_wf (database w) →
  record ∈ rows (database w) →
  let w1 := with_database w (db_delete (database w) (rec_id record)) in
  let w2 := record_change w1 path original_owner current_owner in
  ∀ r, r ∈ rows (database w2) → rec_id r ≠ rec_id record.
Proof.
  intros [_ Hle] Hrec w1 w2 r. subst w1 w2. rewrite record_change_database.
  destruct (sqlite3_raises _); simpl.
  - by intros [Hne _]%list_elem_of_filter.
  - rewrite elem_of_app, list_elem_of_filter, list_elem_of_singleton.
    intros [[Hne _]| ->]; [done|]. simpl.
    pose proof (proj1 (Forall_forall _ _) Hle _ Hrec) as Hid.
    pose proof (next_rowid_beyond (db_delete (database w) (rec_id record))) as Hn.
    simpl in *. lia.
Qed.

Lemma deleted_id_is_not_reused_witness :
  db_wf (database changed_world)
  ∧ first_record ∈ rows (database changed_world)
  ∧ ∀ r, r ∈ rows (database
               (record_change
                  (with_database changed_world
                     (db_delete (database changed_world) (rec_id first_record)))
                  "/home/bob/notes.txt" "bob" "alice")) →
         rec_id r ≠ rec_id first_record.
Proof.
  assert (db_wf (database changed_world)) as H1.
  { assert (database changed_world = Db [first_record] 1) as ->
      by (vm_compute; reflexivity).
    split; simpl.
    - apply NoDup_singleton.
    - repeat constructor. }
  assert (first_record ∈ rows (database changed_world)) as H2.
  { rewrite changed_world_rows. apply list_elem_of_here. }
  pose proof (deleted_id_is_not_reused changed_world first_record
                "/home/bob/notes.txt" "bob" "alice" H1 H2) as H.
  split_and!; [exact H1|exact H2|exact H].
Defined.

Lemma filter_fresh_ids (l : list ChangeRecord) i :
  (∀ r, r ∈ l → rec_id r ≠ i) → filter (λ r, rec_id r ≠ i) l = l.
Proof.
  intros H. induction l as [|r l IH]; [done|].
  rewrite filter_cons_True; [|apply H; by left].
  f_equal. apply IH. intros r' Hr'. apply H. by right.
Qed.

(** X5.  [record_change] gives the new row the id [next_rowid], above every
    id of the table and above the [AUTOINCREMENT] counter, and appends it;
    when sqlite3 raises it records nothing and returns all the same.  In both
    cases deleting that id afterwards gives back the rows there were. *)
Theorem record_then_delete_restores_rows (w : World)
    (path original_owner current_owner : string) :
  let w1 := record_change w path original_owner current_owner in
  let i := next_rowid (database w) in
  (if sqlite3_raises w then database w1 = database w
   else rows (database w1)
        = rows (database w) ++ [Row i path original_owner current_owner (clock w)]
        ∧ sqlite_sequence (database w1) = i)
  ∧ (∀ r, r ∈ rows (database w) → rec_id r < i)
  ∧ sqlite_sequence (database w) < i
  ∧ rows (db_delete (database w1) i) = rows (database w).
Proof.
  intros w1 i. subst w1 i. rewrite record_change_database.
  assert (∀ r, r ∈ rows (database w) → rec_id r ≠ next_rowid (database w)) as Hne.
  { intros r Hr. pose proof (next_rowid_fresh _ _ Hr). lia. }
  split_and!.
  - by destruct (sqlite3_raises w).
  - intros r Hr. by apply next_rowid_fresh.
  - apply next_rowid_beyond.
  - destruct (sqlite3_raises w); simpl.
    + by apply filter_fresh_ids.
    + rewrite filter_app, filter_cons_False, filter_nil, app_nil_r.
      * by apply filter_fresh_ids.
      * simpl. intros H. by apply H.
Qed.

Example record_change_with_locked_database :
  let w := with_sqlite_errors changed_world [Some "database is locked"] in
  rows (database (record_change w "/home/bob/notes.txt" "bob" "alice"))
  = [first_record]
  ∧ rows (database (record_change changed_world "/home/bob/notes.txt" "bob" "alice"))
    = [first_record; Row 2 "/home/bob/notes.txt" "bob" "alice" 7].
Proof. split; vm_compute; reflexivity. Qed.

(** ** Rows and counters of a change run and of a revert run *)

Lemma drop_tail {A} n (l : list A) : drop n (tail l) = drop (S n) l.
Proof. destruct l; simpl; [by rewrite drop_nil|done]. Qed.

Lemma sqlite3_raises_spec w :
  sqlite3_raises w = match sqlite_errors w with Some _ :: _ => true | _ => false end.
Proof.
  unfold sqlite3_raises, sqlite3_attempt.
  by destruct (sqlite_errors w) as [|[e|] rest].
Qed.

Lemma sqlite3_failures_S n w :
  sqlite3_failures (S n) w
  = (if sqlite3_raises w then 1 else 0)
    + length (filter is_Some (take n (tail (sqlite_errors w)))).
Proof.
  unfold sqlite3_failures. rewrite sqlite3_raises_spec.
  destruct (sqlite_errors w) as [|[e|] rest].
  - simpl. by rewrite take_nil.
  - change (take (S n) (Some e :: rest)) with (Some e :: take n rest).
    by rewrite filter_cons_True by eauto.
  - change (take (S n) (None :: rest)) with (@None string :: take n rest).
    by rewrite filter_cons_False by (by intros [??]).
Qed.

Lemma change_item_rows current_user w item t :
  let '(w', t', _) := change_item current_user w item t in
  (w' = w ∧ t' = incr_errors t)
  ∨ (t' = incr_changed t
     ∧ sqlite_errors w' = tail (sqlite_errors w)
     ∧ if sqlite3_raises w then database w' = database w
       else ∃ r, rows (database w') = rows (database w) ++ [r]
                 ∧ rec_path r = item_path item
                 ∧ rec_original_owner r = item_original_owner item).
Proof.
  destruct (set_owner w (item_path item) current_user).2.1 eqn:Hs.
  - pose proof (change_item_success _ _ _ t Hs) as H.
    destruct (change_item current_user w item t) as [[w' t'] o]. simpl in H.
    injection H as -> ->. right.
    rewrite record_change_sqlite_errors, set_owner_sqlite_errors.
    rewrite record_change_database, sqlite3_raises_set_owner, set_owner_database.
    split_and!; [done|done|].
    destruct (sqlite3_raises w); [done|]. eexists. simpl. split; [reflexivity|done].
  - pose proof (change_item_failure _ _ _ t Hs) as H.
    destruct (change_item current_user w item t) as [[w' t'] o]. simpl in H.
    injection H as -> ->. by left.
Qed.

Lemma change_for_each_rows current_user total idx items w t :
  let '(w', t', _) := for_each (change_item current_user) total idx items w t in
  ∃ new n,
    rows (database w') = rows (database w) ++ new
    ∧ changed t' = changed t + n
    ∧ sqlite_errors w' = drop n (sqlite_errors w)
    ∧ length new + sqlite3_failures n w = n
    ∧ unchanged t' = unchanged t
    ∧ changed t' + errors t' = changed t + errors t + length items
    ∧ Forall (λ r, ∃ item, item ∈ items ∧ rec_path r = item_path item
                    ∧ rec_original_owner r = item_original_owner item) new.
Proof.
  revert idx w t. induction items as [|item items IH]; intros idx w t; simpl.
  - exists [], 0. rewrite app_nil_r. split_and!; try done; lia.
  - pose proof (change_item_rows current_user w item t) as Hitem.
    destruct (change_item current_user w item t) as [[w1 t1] o].
    specialize (IH (S idx) w1 t1).
    destruct (for_each _ total (S idx) items w1 t1) as [[w2 t2] o2].
    destruct IH as (new & n & Hrows & Hc & Herr & Hlen & Hu & Hsum & Hnew).
    assert (Forall (λ r, ∃ it, it ∈ item :: items ∧ rec_path r = item_path it
                          ∧ rec_original_owner r = item_original_owner it) new)
      as Hnew'.
    { eapply Forall_impl; [exact Hnew|]. intros r (it & ? & ?). exists it.
      split; [by right|done]. }
    destruct Hitem as [[-> ->]|(-> & Herr1 & Hdb)].
    + exists new, n. simpl in *. split_and!; try done; lia.
    + unfold sqlite3_failures in Hlen. rewrite Herr1 in Herr, Hlen.
      destruct (sqlite3_raises w) eqn:Hraise.
      * exists new, (S n). rewrite sqlite3_failures_S, Hraise.
        rewrite Hrows, Hdb. simpl in *.
        split_and!; try done; try lia.
        by rewrite Herr, drop_tail.
      * destruct Hdb as (r & Hr & Hp & Ho).
        exists (r :: new), (S n). rewrite sqlite3_failures_S, Hraise.
        rewrite Hrows, Hr, <- app_assoc. simpl in *.
        split_and!; try done; try lia.
        -- by rewrite Herr, drop_tail.
        -- constructor; [|done]. exists item. split; [by left|done].
Qed.

(** X6.  A change run emits one tally; it never counts an item as unchanged
    and counts every item once, as changed or as an error.  It makes one use
    of sqlite3 for every item counted as changed; the rows that it appends to
    the audit table (it removes none) are as many as those items less the uses
    in which sqlite3 raised, so that an item is counted as changed although no
    row records it when [record_change] has caught an exception.  Every new
    row carries the path and the original owner of one of the items. *)
Theorem change_run_accounting (w : World) (items : list Item)
    (current_user : string) :
  let run := OwnershipChangeWorker_run w items current_user in
  ∃ t new,
    tallies_of run.2 = [t]
    ∧ rows (database run.1) = rows (database w) ++ new
    ∧ sqlite_errors run.1 = drop (changed t) (sqlite_errors w)
    ∧ length new + sqlite3_failures (changed t) w = changed t
    ∧ (sqlite3_works (length items) w → length new = changed t)
    ∧ unchanged t = 0
    ∧ changed t + errors t = length items
    ∧ Forall (λ r, ∃ item, item ∈ items ∧ rec_path r = item_path item
                    ∧ rec_original_owner r = item_original_owner item) new.
Proof.
  intros run. subst run. unfold OwnershipChangeWorker_run.
  pose proof (change_for_each_rows current_user (length items) 1 items w tally0)
    as H.
  pose proof (tallies_of_for_each (change_item current_user) (length items) 1
                items w tally0 (change_item_no_tally current_user)) as Ho.
  destruct (for_each _ _ 1 items w tally0) as [[w' t] o]. simpl in *.
  destruct H as (new & n & Hrows & Hc & Herr & Hlen & Hu & Hsum & Hnew).
  exists t, new. rewrite tallies_of_app, Ho. destruct t as [c u e]. simpl in *.
  subst c. split_and!; try done; try lia.
  intros Hworks.
  assert (sqlite3_failures n w = 0) as Hnone; [|lia].
  unfold sqlite3_failures, sqlite3_works in *.
  assert (Forall (λ e, e = None) (take n (sqlite_errors w))) as Hn.
  { replace (take n (sqlite_errors w))
      with (take n (take (length items) (sqlite_errors w))).
    - by apply Forall_take.
    - rewrite take_take. f_equal. lia. }
  clear -Hn. induction Hn as [|x l -> _ IH]; [done|].
  rewrite filter_cons_False; [done|]. by intros [??].
Qed.

Lemma revert_item_rows w record t :
  let '(w', t', _) := revert_item w record t in
  unchanged t' = unchanged t
  ∧ changed t' + errors t' = S (changed t + errors t)
  ∧ rows (database w') `sublist_of` rows (database w)
  ∧ ∀ r, r ∈ rows (database w) → rec_id r ≠ rec_id record →
         r ∈ rows (database w').
Proof.
  destruct (set_owner w (rec_path record) (rec_original_owner record)).2.1 eqn:Hs.
  - pose proof (revert_item_success _ _ t Hs) as H.
    destruct (revert_item w record t) as [[w' t'] o]. simpl in H.
    destruct (sqlite3_raises _); injection H as -> ->; simpl;
      rewrite sqlite3_attempt_database, set_owner_database.
    + split_and!; [done|lia|done|done].
    + split_and!; [done|lia|apply sublist_filter|].
      intros r Hr Hne. by apply list_elem_of_filter.
  - pose proof (revert_item_failure _ _ t Hs) as H.
    destruct (revert_item w record t) as [[w' t'] o]. simpl in H.
    injection H as -> ->. simpl. split_and!; [done|lia|done|done].
Qed.

Lemma revert_for_each_rows total idx records w t :
  let '(w', t', _) := for_each revert_item total idx records w t in
  unchanged t' = unchanged t
  ∧ changed t' + errors t' = changed t + errors t + length records
  ∧ rows (database w') `sublist_of` rows (database w)
  ∧ ∀ r, r ∈ rows (database w) → rec_id r ∉ rec_id <$> records →
         r ∈ rows (database w').
Proof.
  revert idx w t. induction records as [|record records IH]; intros idx w t; simpl.
  - split_and!; try done; lia.
  - pose proof (revert_item_rows w record t) as Hitem.
    destruct (revert_item w record t) as [[w1 t1] o].
    specialize (IH (S idx) w1 t1).
    destruct (for_each _ total (S idx) records w1 t1) as [[w2 t2] o2].
    destruct Hitem as (Hu1 & Hs1 & Hsub1 & Hkeep1).
    destruct IH as (Hu2 & Hs2 & Hsub2 & Hkeep2).
    split_and!; [congruence|lia|by etrans|].
    intros r Hr Hid. apply not_elem_of_cons in Hid as [Hne Hid]. auto.
Qed.

(** X7.  A revert run emits one tally, counts every record once as changed
    or as an error and none as unchanged; it adds no row to the audit table
    and keeps, in their order, at least the rows whose id is not the id of a
    record of the run. *)
Theorem revert_run_keeps_other_records (w : World) (records : list ChangeRecord) :
  let run := RevertOwnershipWorker_run w records in
  ∃ t,
    tallies_of run.2 = [t]
    ∧ unchanged t = 0
    ∧ changed t + errors t = length records
    ∧ rows (database run.1) `sublist_of` rows (database w)
    ∧ ∀ r, r ∈ rows (database w) → rec_id r ∉ rec_id <$> records →
           r ∈ rows (database run.1).
Proof.
  intros run. subst run. unfold RevertOwnershipWorker_run.
  pose proof (revert_for_each_rows (length records) 1 records w tally0) as H.
  pose proof (tallies_of_for_each revert_item (length records) 1
                records w tally0 revert_item_no_tally) as Ho.
  destruct (for_each _ _ 1 records w tally0) as [[w' t] o]. simpl in *.
  destruct H as (Hu & Hsum & Hsub & Hkeep).
  exists t. rewrite tallies_of_app, Ho. destruct t. simpl in *.
  split_and!; done.
Qed.

(** ** Changing and reverting one path *)

Lemma change_worker_single w item current_user :
  (OwnershipChangeWorker_run w [item] current_user).1
  = (change_item current_user w item tally0).1.1.
Proof.
  unfold OwnershipChangeWorker_run. simpl.
  by destruct (change_item current_user w item tally0) as [[w1 t1] o].
Qed.

Lemma revert_worker_single w record :
  (RevertOwnershipWorker_run w [record]).1 = (revert_item w record tally0).1.1.
Proof.
  unfold RevertOwnershipWorker_run. simpl.
  by destruct (revert_item w record tally0) as [[w1 t1] o].
Qed.

Lemma sqlite3_raises_ext w w' :
  sqlite_errors w' = sqlite_errors w → sqlite3_raises w' = sqlite3_raises w.
Proof. intros H. by rewrite !sqlite3_raises_spec, H. Qed.

Lemma sqlite3_works_S n w :
  sqlite3_works (S n) w →
  sqlite3_raises w = false
  ∧ ∀ w', sqlite_errors w' = tail (sqlite_errors w) → sqlite3_works n w'.
Proof.
  unfold sqlite3_works. rewrite sqlite3_raises_spec.
  destruct (sqlite_errors w) as [|e rest].
  - intros _. split; [done|]. intros w' ->. simpl. by rewrite take_nil.
  - change (take (S n) (e :: rest)) with (e :: take n rest).
    intros [-> Hrest]%Forall_cons. split; [done|]. by intros w' ->.
Qed.

(** X8.  Changing one path and then reverting the record that the change
    added restores the owner and the rows of the audit table, when account
    names are unique, the owner before the change could be looked up, the
    change succeeded and sqlite3 raised neither in [record_change] nor in the
    [DELETE] of the revert. *)
Theorem change_then_revert_restores (w : World) (path current_user : string) :
  NoDup (pw_name <$> passwd w) →
  owner_lookup_fails w path = false →
  (set_owner w path current_user).2.1 = true →
  sqlite3_works 2 w →
  let original := get_owner w path in
  let w1 := (OwnershipChangeWorker_run w [MkItem path original] current_user).1 in
  let added := drop (length (rows (database w))) (rows (database w1)) in
  let w2 := (RevertOwnershipWorker_run w1 added).1 in
  length added = 1
  ∧ get_owner w2 path = original
  ∧ rows (database w2) = rows (database w).
Proof.
  intros Hnames Hknown Hs Hsql original w1 added w2.
  assert (original = get_owner w path) as Eo by done.
  assert (w1 = (OwnershipChangeWorker_run w [MkItem path original]
                  current_user).1) as E1 by done.
  assert (added = drop (length (rows (database w))) (rows (database w1)))
    as Ea by done.
  assert (w2 = (RevertOwnershipWorker_run w1 added).1) as E2 by done.
  pose proof (change_run_same_names w [MkItem path original] current_user) as Hn1.
  pose proof (revert_run_same_names w1 added) as Hn2.
  fold w1 in Hn1. fold w2 in Hn2.
  clearbody w2 added w1 original.
  (* the two uses of sqlite3 *)
  apply sqlite3_works_S in Hsql as [Hsql1 Hsql2].
  (* the owner before the change *)
  assert (∃ i st e0, lookup_file w path = Some i ∧ inodes w !! i = Some st
                     ∧ getpwuid w (st_uid st) = Return e0
                     ∧ original = pw_name e0) as (i & st & e0 & Hi & Hst & He0 & Horig).
  { rewrite Eo. unfold owner_lookup_fails, os_stat in Hknown.
    unfold get_owner, os_stat.
    destruct (lookup_file w path) as [i|] eqn:Ei; [|done]. simpl in *.
    destruct (inodes w !! i) as [st|] eqn:Est; [|done].
    destruct (getpwuid w (st_uid st)) as [e0|] eqn:Ee0; [|done].
    by exists i, st, e0. }
  destruct (getpwuid_Return _ _ _ He0) as [Huid0 Hin0].
  (* the change *)
  remember (set_owner w path current_user).1 as ws eqn:Ews.
  assert (w1 = record_change ws path original (get_owner ws path)) as Hw1.
  { rewrite E1, change_worker_single.
    rewrite (change_item_success current_user w (MkItem path original) tally0 Hs).
    simpl. by rewrite <- Ews. }
  assert (sqlite_errors w1 = tail (sqlite_errors w)) as Herr1.
  { by rewrite Hw1, record_change_sqlite_errors, Ews, set_owner_sqlite_errors. }
  remember (Row (next_rowid (database w)) path original (get_owner ws path)
              (clock ws)) as r eqn:Er.
  assert (rows (database w1) = rows (database w) ++ [r]) as Hr.
  { rewrite Hw1, record_change_database, Er, Ews.
    rewrite sqlite3_raises_set_owner, Hsql1, set_owner_database. done. }
  assert (rec_path r = path ∧ rec_original_owner r = original
          ∧ rec_id r = next_rowid (database w)) as (Hrp & Hro & Hri)
    by (by rewrite Er).
  assert (added = [r]) as Hadded.
  { rewrite Ea, Hr. by rewrite drop_app_length. }
  assert (∀ r', r' ∈ rows (database w) → rec_id r' ≠ rec_id r) as Hfresh.
  { intros r' Hr'. rewrite Hri. pose proof (next_rowid_fresh _ _ Hr'). lia. }
  (* the revert *)
  destruct (getpwnam_of_member w e0 Hin0) as [e1 He1].
  destruct (getpwnam_Return _ _ _ He1) as [Hname1 Hin1].
  assert (e1 = e0) as ->
    by exact (fmap_NoDup_inj pw_name (passwd w) e1 e0 Hnames Hin1 Hin0 Hname1).
  assert (getpwnam w1 original = Return e0) as He0'.
  { rewrite (same_names_getpwnam _ _ _ Hn1), Horig. exact He1. }
  assert (lookup_file w1 path = Some i) as Hi1
    by (by rewrite (same_names_lookup_file _ _ _ Hn1)).
  assert (path ∉ chown_denied w1) as Hden1.
  { destruct Hn1 as (_&_&_&->&_). by apply set_owner_success in Hs as (?&?&?&?&?&?). }
  pose proof (set_owner_succeeds w1 path original e0 i He0' Hi1 Hden1) as Hrevert.
  assert (w2 = (revert_item w1 r tally0).1.1) as Hw2
    by (by rewrite E2, Hadded, revert_worker_single).
  assert ((set_owner w1 (rec_path r) (rec_original_owner r)).2.1 = true) as Hs2
    by (by rewrite Hrp, Hro, Hrevert).
  split; [by rewrite Hadded|]. split.
  - assert (inodes w2 !! i = Some (StatResult (pw_uid e0) (pw_gid e0))) as Hnew.
    { rewrite Hw2, revert_item_inodes, Hrp, Hro, Hrevert. simpl.
      by rewrite lookup_insert_eq. }
    assert (same_names w w2) as Hn by (by eapply same_names_trans).
    rewrite (get_owner_file w2 path i _ ltac:(by rewrite (same_names_lookup_file _ _ _ Hn)) Hnew).
    rewrite (same_names_getpwuid _ _ _ Hn). simpl.
    rewrite <- Huid0 in He0. by rewrite He0.
  - rewrite Hw2, (revert_item_success _ _ _ Hs2). simpl.
    rewrite sqlite3_raises_set_owner.
    rewrite (sqlite3_raises_ext (sqlite3_attempt w).1 w1)
      by (by rewrite Herr1, sqlite3_attempt_errors).
    rewrite (proj1 (sqlite3_works_S 0 _ (Hsql2 _ (sqlite3_attempt_errors w)))).
    simpl. rewrite sqlite3_attempt_database, set_owner_database, Hr.
    rewrite filter_app, filter_cons_False, filter_nil, app_nil_r.
    + by apply filter_fresh_ids.
    + simpl. intros H. by apply H.
Qed.

Lemma change_then_revert_restores_witness :
  let path := "/home/bob/docs/cv.txt" in
  let w := with_sqlite_errors home_world
             [None; None; Some "database is locked"] in
  let w1 := (OwnershipChangeWorker_run w
               [MkItem path (get_owner w path)] "alice").1 in
  let added := drop (length (rows (database w))) (rows (database w1)) in
  let w2 := (RevertOwnershipWorker_run w1 added).1 in
  NoDup (pw_name <$> passwd w)
  ∧ owner_lookup_fails w path = false
  ∧ (set_owner w path "alice").2.1 = true
  ∧ sqlite3_works 2 w
  ∧ get_owner w1 path = "alice"
  ∧ get_owner w2 path = "bob".
Proof.
  intros path w w1 added w2.
  assert (NoDup (pw_name <$> passwd w)) as H1.
  { apply (bool_decide_unpack _). by vm_compute. }
  assert (owner_lookup_fails w path = false) as H2
    by (vm_compute; reflexivity).
  assert ((set_owner w path "alice").2.1 = true) as H3
    by (vm_compute; reflexivity).
  assert (sqlite3_works 2 w) as H4 by (by repeat constructor).
  destruct (change_then_revert_restores w path "alice" H1 H2 H3 H4)
    as (_ & Hback & _).
  split_and!; [exact H1|exact H2|exact H3|exact H4|by vm_compute|].
  etrans; [exact Hback|]. by vm_compute.
Defined.

(** Without the record there is nothing to revert: when sqlite3 raises in
    [record_change], the file is alice's, the run reports one change and the
    audit table is empty. *)
Example change_with_locked_database :
  let path := "/home/bob/docs/cv.txt" in
  let w := with_sqlite_errors home_world [Some "database is locked"] in
  let run := OwnershipChangeWorker_run w [MkItem path "bob"] "alice" in
  get_owner run.1 path = "alice"
  ∧ tallies_of run.2 = [MkTally 1 0 0]
  ∧ rows (database run.1) = [].
Proof. vm_compute. done. Qed.

(** ** The log and the list of paths of a check run *)

Lemma ownership_list_deliver b g s : ownership_list (deliver b g s) = ownership_list g.
Proof.
  destruct s; simpl; try done.
  - unfold update_progress. by case_match.
  - by destruct b.
Qed.

Lemma ownership_list_foldl_deliver b out g :
  ownership_list (foldl (deliver b) g out) = ownership_list g.
Proof.
  revert g. induction out as [|s out IH]; intros g; [done|].
  simpl. by rewrite IH, ownership_list_deliver.
Qed.

Lemma log_display_deliver b g s :
  log_display (deliver b g s) = log_display g ++ option_list (as_log s).
Proof.
  destruct s; simpl; rewrite ?app_nil_r; try done.
  - unfold update_progress. by case_match.
  - by destruct b.
Qed.

Lemma log_display_foldl_deliver b out g :
  log_display (foldl (deliver b) g out) = log_display g ++ logs_of out.
Proof.
  revert g. induction out as [|s out IH]; intros g; simpl.
  - by rewrite app_nil_r.
  - rewrite IH, log_display_deliver, <- app_assoc. f_equal.
    unfold logs_of. simpl. by destruct (as_log s).
Qed.

Lemma logs_of_app o1 o2 : logs_of (o1 ++ o2) = logs_of o1 ++ logs_of o2.
Proof. apply omap_app. Qed.

Lemma logs_of_emit_progress idx total : logs_of (emit_progress idx total) = [].
Proof. unfold emit_progress. by destruct (progress_due idx total). Qed.

Lemma check_for_each_log_lines current_user total idx paths w t :
  logs_of (for_each (check_item current_user) total idx paths w t).2
  = checked_line w <$> paths.
Proof.
  revert idx t. induction paths as [|p paths IH]; intros idx t; [done|].
  simpl. rewrite check_item_eq. specialize (IH (S idx) (incr_unchanged t)).
  destruct (for_each _ total (S idx) paths w (incr_unchanged t)) as [[w2 t2] o2].
  simpl in *. rewrite logs_of_app, logs_of_emit_progress, IH. done.
Qed.

Lemma check_worker_log_lines w paths current_user :
  logs_of (OwnershipCheckWorker_run w paths current_user).2
  = checked_line w <$> paths.
Proof.
  unfold OwnershipCheckWorker_run.
  pose proof (check_for_each_log_lines current_user (length paths) 1 paths w tally0)
    as H.
  destruct (for_each _ _ 1 paths w tally0) as [[w' t] o]. simpl in *.
  by rewrite logs_of_app, H, app_nil_r.
Qed.

Lemma check_workers_log_lines w chunks current_user schedule :
  logs_of (check_workers_signals w chunks current_user schedule)
  ≡ₚ checked_line w <$> mjoin chunks.
Proof.
  unfold check_workers_signals, logs_of.
  rewrite merge_signals_perm. clear schedule.
  induction chunks as [|chunk chunks IH]; [done|].
  simpl. rewrite omap_app, IH, fmap_app.
  fold (logs_of (OwnershipCheckWorker_run w chunk current_user).2).
  by rewrite check_worker_log_lines.
Qed.

Lemma make_chunks_join {A} (T : Z) (l : list A) chunks :
  make_chunks T l = Return chunks → mjoin chunks = l.
Proof.
  unfold make_chunks. destruct (Z.eqb_spec (Z.min 4 T) 0); [done|].
  intros [= <-]. apply chunks_join. apply chunk_size_of_pos.
Qed.

(** X10.  Whatever the order in which the signals of the workers are
    delivered, [log_message] appends to the log display of a check run exactly
    one text ["Checked: path - Owner: owner"] for every gathered path, and
    nothing else.  (The statement is about the texts given to
    [QTextEdit.append]; how the widget renders them is not embedded.) *)
Theorem check_run_logs_every_path (w : World) (g : Gui)
    (selected_files selected_folders : list string) (current_user : string)
    (max_thread_count : Z) (schedule : list nat) :
  selected_files ++ selected_folders ≠ [] →
  Z.min 4 max_thread_count ≠ 0%Z →
  log_display (check_ownership_info w g selected_files selected_folders
                 current_user max_thread_count schedule)
  ≡ₚ checked_line w
       <$> gather_all_paths w (selected_files ++ selected_folders).
Proof.
  intros Hsel HT. unfold check_ownership_info.
  destruct (selected_files ++ selected_folders) as [|p ps] eqn:E; [done|].
  destruct (make_chunks max_thread_count (gather_all_paths w (p :: ps)))
    as [chunks|e] eqn:Ec.
  - rewrite log_display_foldl_deliver. simpl.
    rewrite check_workers_log_lines. by rewrite (make_chunks_join _ _ _ Ec).
  - unfold make_chunks in Ec. by destruct (Z.eqb_spec (Z.min 4 max_thread_count) 0).
Qed.

Lemma check_run_logs_every_path_witness :
  [] ++ ["/home/bob"] ≠ ([] : list string)
  ∧ Z.min 4 4 ≠ 0%Z
  ∧ length (log_display (check_ownership_info home_world fresh_gui []
                           ["/home/bob"] "alice" 4 [2; 0; 1; 1; 0]))
    = 5.
Proof.
  assert ([] ++ ["/home/bob"] ≠ ([] : list string)) as H1 by done.
  assert (Z.min 4 4 ≠ 0%Z) as H2 by lia.
  split_and!; [exact H1|exact H2|].
  rewrite (check_run_logs_every_path home_world fresh_gui [] ["/home/bob"]
             "alice" 4 [2; 0; 1; 1; 0] H1 H2).
  by vm_compute.
Defined.

Lemma preselected_items w current_user (l : list string) :
  (λ it : string * bool, MkItem it.1 (get_owner w it.1))
    <$> filter (λ it : string * bool, it.2)
          ((λ path, (path, bool_decide (get_owner w path ≠ current_user))) <$> l)
  = (λ path, MkItem path (get_owner w path))
      <$> filter (λ path, get_owner w path ≠ current_user) l.
Proof.
  induction l as [|q l IH]; [done|]. rewrite fmap_cons.
  destruct (decide (get_owner w q ≠ current_user)) as [Hq|Hq].
  - rewrite (filter_cons_True (λ path, get_owner w path ≠ current_user)) by done.
    rewrite filter_cons_True by (simpl; by apply bool_decide_pack).
    rewrite !fmap_cons, IH. reflexivity.
  - rewrite (filter_cons_False (λ path, get_owner w path ≠ current_user)) by done.
    rewrite filter_cons_False; [done|].
    simpl. intros Hb. by apply bool_decide_unpack in Hb.
Qed.

(** X11.  After a check run the items ticked for a change are, in gathering
    order, the gathered paths whose owner is not the acting user, each with
    its current owner as original owner. *)
Theorem check_run_preselects_foreign_paths (w : World) (g : Gui)
    (selected_files selected_folders : list string) (current_user : string)
    (max_thread_count : Z) (schedule : list nat) :
  selected_files ++ selected_folders ≠ [] →
  Z.min 4 max_thread_count ≠ 0%Z →
  selected_items_of w
    (check_ownership_info w g selected_files selected_folders
       current_user max_thread_count schedule)
  = (λ path, MkItem path (get_owner w path))
      <$> filter (λ path, get_owner w path ≠ current_user)
            (gather_all_paths w (selected_files ++ selected_folders)).
Proof.
  intros Hsel HT. unfold check_ownership_info, selected_items_of.
  destruct (selected_files ++ selected_folders) as [|p ps] eqn:E; [done|].
  destruct (make_chunks max_thread_count (gather_all_paths w (p :: ps)))
    as [chunks|e] eqn:Ec.
  - rewrite ownership_list_foldl_deliver.
    remember (gather_all_paths w (p :: ps)) as l eqn:El. clear El Ec.
    apply preselected_items.
  - unfold make_chunks in Ec. by destruct (Z.eqb_spec (Z.min 4 max_thread_count) 0).
Qed.

Lemma check_run_preselects_foreign_paths_witness :
  [] ++ ["/home/bob"] ≠ ([] : list string)
  ∧ Z.min 4 4 ≠ 0%Z
  ∧ item_path <$> selected_items_of home_world
      (check_ownership_info home_world fresh_gui [] ["/home/bob"] "bob" 4 [])
    = [].
Proof.
  assert ([] ++ ["/home/bob"] ≠ ([] : list string)) as H1 by done.
  assert (Z.min 4 4 ≠ 0%Z) as H2 by lia.
  split_and!; [exact H1|exact H2|].
  rewrite (check_run_preselects_foreign_paths home_world fresh_gui []
             ["/home/bob"] "bob" 4 [] H1 H2).
  by vm_compute.
Defined.

(** X12.  After "Select All" is ticked every listed path is an item of the
    next change; after it is unticked, [change_permissions] changes nothing
    and only shows that no item is selected. *)
Theorem select_all_then_change (w : World) (g : Gui) (current_user : string)
    (confirmed : bool) :
  selected_items_of w (toggle_select_all g true)
    = (λ it : string * bool, MkItem it.1 (get_owner w it.1)) <$> ownership_list g
  ∧ change_permissions w (toggle_select_all g false) current_user confirmed
    = (w, show_message_box (toggle_select_all g false)
            "No items selected for ownership change.").
Proof.
  split.
  - unfold selected_items_of, toggle_select_all. simpl.
    induction (ownership_list g) as [|it l IH]; [done|].
    rewrite !fmap_cons, filter_cons_True by done.
    rewrite fmap_cons, IH. reflexivity.
  - unfold change_permissions.
    assert (selected_items_of w (toggle_select_all g false) = []) as ->; [|done].
    unfold selected_items_of, toggle_select_all. simpl.
    induction (ownership_list g) as [|it l IH]; [done|].
    rewrite fmap_cons, filter_cons_False by (simpl; tauto). exact IH.
Qed.



Lemma merge_signals_nil schedule : merge_signals schedule [] = [].
Proof. induction schedule as [|i schedule IH]; [done|]. by simpl. Qed.

(** X14.  A check run that gathers no path (an empty folder, a selection that
    does not exist) starts no worker: the progress bar stays at 0, the log and
    the list of paths are empty, the counters are 0 and no message box is
    shown. *)
Theorem check_run_of_nothing (w : World) (g : Gui)
    (selected_files selected_folders : list string) (current_user : string)
    (max_thread_count : Z) (schedule : list nat) :
  selected_files ++ selected_folders ≠ [] →
  Z.min 4 max_thread_count ≠ 0%Z →
  gather_all_paths w (selected_files ++ selected_folders) = [] →
  let g' := check_ownership_info w g selected_files selected_folders
              current_user max_thread_count schedule in
  progress_bar g' = 0%Z ∧ log_display g' = [] ∧ counters g' = tally0
  ∧ ownership_list g' = [] ∧ status_bar g' = "Ownership check completed."
  ∧ message_boxes g' = message_boxes g.
Proof.
  intros Hsel HT Hnone g'. subst g'. unfold check_ownership_info.
  destruct (selected_files ++ selected_folders) as [|p ps] eqn:E; [done|].
  rewrite Hnone. unfold make_chunks.
  destruct (Z.eqb_spec (Z.min 4 max_thread_count) 0) as [?|_]; [done|].
  assert (py_range (length (@nil string))
            (chunk_size_of max_thread_count (length (@nil string))) = []) as ->.
  { unfold py_range. simpl length.
    pose proof (chunk_size_of_pos max_thread_count 0).
    rewrite Nat.div_small by lia. done. }
  unfold check_workers_signals. rewrite fmap_nil, merge_signals_nil. done.
Qed.

Lemma check_run_of_nothing_witness :
  let w := world_of "/srv/empty" (Dir true []) ∅ in
  [] ++ ["/srv/empty"] ≠ ([] : list string)
  ∧ Z.min 4 4 ≠ 0%Z
  ∧ gather_all_paths w ([] ++ ["/srv/empty"]) = []
  ∧ progress_bar (check_ownership_info w fresh_gui [] ["/srv/empty"] "alice" 4 [])
    = 0%Z.
Proof.
  intros w.
  assert ([] ++ ["/srv/empty"] ≠ ([] : list string)) as H1 by done.
  assert (Z.min 4 4 ≠ 0%Z) as H2 by lia.
  assert (gather_all_paths w ([] ++ ["/srv/empty"]) = []) as H3
    by (vm_compute; reflexivity).
  split_and!; [exact H1|exact H2|exact H3|].
  exact (proj1 (check_run_of_nothing w fresh_gui [] ["/srv/empty"] "alice" 4 []
                  H1 H2 H3)).
Defined.

(** ** The final report *)


Lemma emit_progress_item_signals idx total :
  Forall item_signal (emit_progress idx total).
Proof. unfold emit_progress. destruct (progress_due idx total); repeat constructor. Qed.

Lemma for_each_item_signals {X}
    (body : World → X → Tally → World * Tally * list Signal) total idx xs w t :
  (∀ w x t, Forall item_signal (body w x t).2) →
  Forall item_signal (for_each body total idx xs w t).2.
Proof.
  intros Hbody. revert idx w t.
  induction xs as [|x xs IH]; intros idx w t; simpl; [constructor|].
  specialize (Hbody w x t). destruct (body w x t) as [[w1 t1] o].
  specialize (IH (S idx) w1 t1).
  destruct (for_each body total (S idx) xs w1 t1) as [[w2 t2] o2]. simpl in *.
  rewrite !Forall_app. split_and!; [done|apply emit_progress_item_signals|done].
Qed.

Lemma change_item_item_signals current_user w item t :
  Forall item_signal (change_item current_user w item t).2.
Proof.
  unfold change_item, change_try.
  destruct (set_owner w (item_path item) current_user) as [w1 [[] error]];
    repeat constructor.
Qed.

Lemma revert_item_item_signals w record t :
  Forall item_signal (revert_item w record t).2.
Proof.
  unfold revert_item, revert_try.
  destruct (set_owner w (rec_path record) (rec_original_owner record))
    as [w1 [[] error]]; [destruct (sqlite3_attempt w1) as [w2 [e|]]|];
    repeat constructor.
Qed.

Lemma reports_item_signals b out g :
  Forall item_signal out →
  reports (foldl (deliver b) g out) = reports g
  ∧ message_boxes (foldl (deliver b) g out) = message_boxes g.
Proof.
  intros Hout. revert g. induction Hout as [|s out Hs _ IH]; intros g; [done|].
  simpl. destruct (IH (deliver b g s)) as [-> ->].
  destruct s; simpl in *; try done. unfold update_progress. by case_match.
Qed.

(** What the window shows when a worker that is connected to
    [show_final_report] has finished. *)
Lemma finished_run_report g out c u e m :
  Forall item_signal out →
  let g' := foldl (deliver true) g
              (out ++ [counters_update c u e; status_update m;
                       ownership_change_finished]) in
  reports g' = reports g ++ [MkTally c u e] ∧ counters g' = MkTally c u e
  ∧ message_boxes g' = message_boxes g.
Proof.
  intros Hout g'. subst g'. rewrite foldl_app. simpl.
  destruct (reports_item_signals true out g Hout) as [-> ->]. done.
Qed.

Lemma report_labels t :
  (UnchangedHeading ∈ FinalReportDialog_init_ui t ↔ 0 < unchanged t)
  ∧ (NoErrorsFound ∈ FinalReportDialog_init_ui t ↔ errors t = 0)
  ∧ (NoChangesMade ∈ FinalReportDialog_init_ui t ↔ changed t = 0).
Proof.
  unfold FinalReportDialog_init_ui.
  destruct (Nat.ltb_spec 0 (changed t)), (Nat.ltb_spec 0 (unchanged t)),
    (Nat.ltb_spec 0 (errors t));
    split_and!; (split; [intros Hin; repeat (apply elem_of_cons in Hin as [Hin|Hin];
                             [try discriminate Hin|]); try (by apply elem_of_nil in Hin); lia
                        |intros ?; try lia; simpl; set_solver]).
Qed.

(** X20.  When a confirmed change run has finished, the window shows one
    final report, with the counters of the run: unchanged is 0, so the report
    has no "Unchanged" section, changed and errors add up to the number of
    selected items, and the line "No errors were found" is there exactly when
    every item was changed. *)
Theorem change_run_final_report (w : World) (g : Gui) (current_user : string) :
  selected_items_of w g ≠ [] →
  let g' := (change_permissions w g current_user true).2 in
  ∃ t,
    reports g' = reports g ++ [t]
    ∧ counters g' = t
    ∧ unchanged t = 0
    ∧ changed t + errors t = length (selected_items_of w g)
    ∧ (UnchangedHeading ∉ FinalReportDialog_init_ui t)
    ∧ (NoErrorsFound ∈ FinalReportDialog_init_ui t
       ↔ changed t = length (selected_items_of w g)).
Proof.
  intros Hsel g'. subst g'. unfold change_permissions.
  destruct (selected_items_of w g) as [|it its] eqn:E; [done|].
  simpl negb. cbv iota. unfold OwnershipChangeWorker_run.
  pose proof (change_for_each_rows current_user (length (it :: its)) 1
                (it :: its) w tally0) as Hrows.
  pose proof (for_each_item_signals (change_item current_user)
                (length (it :: its)) 1 (it :: its) w tally0
                (change_item_item_signals current_user)) as Hsig.
  destruct (for_each _ _ 1 (it :: its) w tally0) as [[w' t] o].
  destruct Hrows as (new & n & _ & _ & _ & _ & Hu & Hsum & _).
  simpl in Hu, Hsum, Hsig.
  destruct (finished_run_report (reset_run g "Starting ownership change...") o
              (changed t) (unchanged t) (errors t)
              "Ownership change process completed." Hsig) as (Hr & Hc & _).
  exists t. cbn [snd]. rewrite Hr, Hc. destruct t as [c u e]. simpl in *. subst u.
  destruct (report_labels (MkTally c 0 e)) as (Hun & Hne & _). simpl in *.
  split_and!; [done|done|done|lia| |].
  - rewrite Hun. lia.
  - rewrite Hne. lia.
Qed.

Lemma change_run_final_report_witness :
  let g := check_ownership_info home_world fresh_gui [] ["/home/bob"] "alice" 4 [] in
  selected_items_of home_world g ≠ []
  ∧ reports (change_permissions home_world g "alice" true).2
    = [MkTally 4 0 1]
  ∧ FinalReportDialog_init_ui (MkTally 4 0 1)
    = [ChangedHeading; TotalChanged 4; ErrorsHeading; TotalErrors 1].
Proof.
  intros g.
  assert (selected_items_of home_world g ≠ []) as H.
  { intros Hnil. apply (f_equal length) in Hnil. by vm_compute in Hnil. }
  destruct (change_run_final_report home_world g "alice" H) as (t & Hr & _).
  split_and!; [exact H| |vm_compute; reflexivity].
  vm_compute. reflexivity.
Defined.

(** ** More on chunks *)

Lemma singleton_slices {A} (l : list A) :
  (λ i, slice l i (i + 1)) <$> seq 0 (length l) = (λ x, [x]) <$> l.
Proof.
  induction l as [|x l IH]; [done|].
  simpl length. rewrite <- cons_seq, <- fmap_S_seq, !fmap_cons.
  rewrite <- list_fmap_compose. f_equal.
  rewrite <- IH. apply list_fmap_ext. intros _ i _. reflexivity.
Qed.

(** X15.  With fewer paths than twice the number of threads, every path is a
    chunk of its own. *)
Theorem few_paths_one_chunk_each {A} (T : Z) (l : list A) :
  (1 ≤ T)%Z →
  length l < 2 * Nat.min 4 (Z.to_nat T) →
  make_chunks T l = Return ((λ x, [x]) <$> l).
Proof.
  intros HT Hfew. rewrite make_chunks_returns by done. cbv zeta.
  assert (chunk_size_of T (length l) = 1) as ->.
  { rewrite chunk_size_of_nat by done.
    assert (length l / Nat.min 4 (Z.to_nat T) < 2); [|lia].
    apply Nat.Div0.div_lt_upper_bound. lia. }
  unfold py_range. rewrite Nat.add_sub, Nat.div_1_r.
  f_equal. rewrite <- singleton_slices, <- list_fmap_compose.
  apply list_fmap_ext. intros _ i _. simpl. by rewrite Nat.mul_1_r.
Qed.

Lemma few_paths_one_chunk_each_witness :
  (1 ≤ 4)%Z
  ∧ length (gather_all_paths home_world ["/home/bob"]) < 2 * Nat.min 4 (Z.to_nat 4)
  ∧ length (chunks_of_run home_world ["/home/bob"] 4) = 5.
Proof.
  assert (1 ≤ 4)%Z as H1 by lia.
  assert (length (gather_all_paths home_world ["/home/bob"])
          < 2 * Nat.min 4 (Z.to_nat 4)) as H2 by (vm_compute; lia).
  split_and!; [exact H1|exact H2|].
  unfold chunks_of_run.
  rewrite (few_paths_one_chunk_each 4 _ H1 H2). by vm_compute.
Defined.

(** X16.  The number of chunks is at most twice the number of threads minus
    one (so at most 7), at most the number of paths, and at least the number
    of threads when there are that many paths. *)
Theorem chunk_count_bounds {A} (T : Z) (l : list A) :
  (1 ≤ T)%Z →
  let threads := Nat.min 4 (Z.to_nat T) in
  ∃ chunks,
    make_chunks T l = Return chunks
    ∧ length chunks ≤ 2 * threads - 1
    ∧ length chunks ≤ length l
    ∧ (threads ≤ length l → threads ≤ length chunks).
Proof.
  intros HT threads. eexists. split; [by apply make_chunks_returns|].
  rewrite chunks_count, chunk_size_of_nat by done. fold threads.
  assert (0 < threads) as Hth by (subst threads; lia).
  pose proof (Nat.div_mod_eq (length l) threads) as Hdm.
  pose proof (Nat.mod_upper_bound (length l) threads ltac:(lia)) as Hr.
  set (q := length l / threads) in *. set (r := length l mod threads) in *.
  destruct (decide (q = 0)) as [Hq|Hq].
  - replace (Nat.max 1 q) with 1 by lia.
    rewrite Nat.add_sub, Nat.div_1_r. split_and!; nia.
  - replace (Nat.max 1 q) with q by lia. split_and!.
    + assert ((length l + q - 1) / q < 2 * threads); [|lia].
      apply Nat.Div0.div_lt_upper_bound. nia.
    + assert ((length l + q - 1) / q < S (length l)); [|lia].
      apply Nat.Div0.div_lt_upper_bound. nia.
    + intros _. apply Nat.div_le_lower_bound; [lia|]. nia.
Qed.

Lemma chunk_count_bounds_witness :
  (1 ≤ 4)%Z
  ∧ ∃ chunks,
      make_chunks 4 (gather_all_paths (folder_world 9) ["/srv/data"])
        = Return chunks
      ∧ length chunks ≤ 7.
Proof.
  assert (1 ≤ 4)%Z as H by lia.
  split; [exact H|].
  destruct (chunk_count_bounds 4
              (gather_all_paths (folder_world 9) ["/srv/data"]) H)
    as (chunks & Hc & Hle & _).
  exists chunks. split; [exact Hc|]. simpl in Hle. lia.
Defined.

Lemma make_chunks_count_exact_witness :
  (1 ≤ 4)%Z ∧ 0 < 2
  ∧ length (gather_all_paths (folder_world 8) ["/srv/data"])
    = 2 * Nat.min 4 (Z.to_nat 4)
  ∧ ∃ chunks,
      make_chunks 4 (gather_all_paths (folder_world 8) ["/srv/data"])
        = Return chunks
      ∧ length chunks = Nat.min 4 (Z.to_nat 4).
Proof.
  assert (1 ≤ 4)%Z as H1 by lia.
  assert (0 < 2) as H2 by lia.
  assert (length (gather_all_paths (folder_world 8) ["/srv/data"])
          = 2 * Nat.min 4 (Z.to_nat 4)) as H3 by (vm_compute; reflexivity).
  split_and!; [exact H1|exact H2|exact H3|].
  exact (make_chunks_count_exact 4
           (gather_all_paths (folder_world 8) ["/srv/data"]) 2 H1 H2 H3).
Defined.

(** ** More on gathering *)

(** X17.  Every gathered path is a selected regular file or lies strictly
    inside a selected directory. *)
Theorem gathered_paths_lie_under_roots (w : World) (selected_paths : list string)
    (path : string) :
  roots_wf w selected_paths →
  path ∈ gather_all_paths w selected_paths →
  ∃ root, root ∈ selected_paths
    ∧ ((os_path_isfile w root = true ∧ path = root)
       ∨ (os_path_isdir w root = true
          ∧ is_prefix (dir_prefix root) path = true ∧ path ≠ root)).
Proof.
  intros Hwf (root & Hpath & Hroot)%list_elem_of_bind.
  exists root. split; [done|].
  destruct (expand_selected_cases w root) as [[Hf E]|[(n&Hn&Hd&E)|E]];
    rewrite E in Hpath.
  - left. apply list_elem_of_singleton in Hpath. done.
  - right. pose proof (Hwf root n Hroot Hn) as Hwfn.
    rewrite (walk_collects_rel_entries n root Hwfn) in Hpath.
    apply list_elem_of_fmap in Hpath as (r & -> & Hr).
    split_and!; [done|apply is_prefix_append|].
    apply (rel_entries_not_empty _ _ Hwfn) in Hr.
    intros Heq. apply (f_equal String.length) in Heq.
    rewrite append_length in Heq.
    assert (String.length root ≤ String.length (dir_prefix root)).
    { destruct (dir_prefix_cases root) as [->| ->]; [done|].
      rewrite append_length. lia. }
    destruct r; [done|]. simpl in Heq. lia.
  - by apply elem_of_nil in Hpath.
Qed.

Lemma gathered_paths_lie_under_roots_witness :
  roots_wf home_world ["/home/bob/docs"; "/home/bob/notes.txt"]
  ∧ "/home/bob/docs/cv.txt"
    ∈ gather_all_paths home_world ["/home/bob/docs"; "/home/bob/notes.txt"]
  ∧ ∃ root, root ∈ ["/home/bob/docs"; "/home/bob/notes.txt"]
      ∧ ((os_path_isfile home_world root = true ∧ "/home/bob/docs/cv.txt" = root)
         ∨ (os_path_isdir home_world root = true
            ∧ is_prefix (dir_prefix root) "/home/bob/docs/cv.txt" = true
            ∧ "/home/bob/docs/cv.txt" ≠ root)).
Proof.
  assert (roots_wf home_world ["/home/bob/docs"; "/home/bob/notes.txt"]) as H1.
  { intros r n Hr Hn.
    repeat (apply elem_of_cons in Hr as [->|Hr]);
    try (by apply elem_of_nil in Hr);
    vm_compute in Hn; injection Hn as <-; by vm_compute. }
  assert ("/home/bob/docs/cv.txt"
          ∈ gather_all_paths home_world ["/home/bob/docs"; "/home/bob/notes.txt"])
    as H2.
  { apply (bool_decide_unpack _). by vm_compute. }
  split_and!; [exact H1|exact H2|].
  exact (gathered_paths_lie_under_roots home_world
           ["/home/bob/docs"; "/home/bob/notes.txt"] "/home/bob/docs/cv.txt" H1 H2).
Defined.

(** ** Reverting a selection *)

(** X21.  A record that is not selected in the revert dialog is still in the
    audit table after the revert run. *)
Theorem unselected_records_survive (w : World) (g : Gui) (selected : list nat)
    (i : nat) (record : ChangeRecord) :
  db_wf (database w) →
  rows (database w) !! i = Some record →
  i ∉ selected →
  record ∈ rows (database (initiate_revert_changes w g selected).1).
Proof.
  intros [Hnd _] Hi Hsel. unfold initiate_revert_changes, get_all_changes.
  assert (record ∈ rows (database w)) as Hin by by eapply list_elem_of_lookup_2.
  pose proof (sqlite3_attempt_database w) as Hd.
  destruct (sqlite3_attempt w) as [w0 [e|]]; simpl in Hd |- *; [by rewrite Hd|].
  rewrite <- Hd in Hnd, Hi, Hin. clear Hd.
  destruct (rows (database w0)) as [|r0 rs] eqn:Erows; [done|].
  rewrite <- Erows in *.
  destruct (omap (λ i, rows (database w0) !! i) selected) as [|s ss] eqn:Es;
    [done|].
  rewrite <- Es. unfold RevertOwnershipWorker_run.
  pose proof (revert_for_each_rows
                (length (omap (λ i, rows (database w0) !! i) selected)) 1
                (omap (λ i, rows (database w0) !! i) selected) w0 tally0) as H.
  destruct (for_each _ _ 1 _ w0 tally0) as [[w' t] o]. simpl.
  destruct H as (_ & _ & _ & Hkeep). apply Hkeep; [done|].
  intros (r' & Hid & Hr')%list_elem_of_fmap.
  apply list_elem_of_omap in Hr' as (j & Hj & Hlook).
  assert (i = j); [|by subst].
  apply (NoDup_lookup (rec_id <$> rows (database w0)) i j (rec_id record)); [done| |].
  - by rewrite list_lookup_fmap, Hi.
  - by rewrite list_lookup_fmap, Hlook, Hid.
Qed.

Lemma unselected_records_survive_witness :
  let w := (OwnershipChangeWorker_run home_world
              [MkItem "/home/bob/docs/cv.txt" "bob";
               MkItem "/home/bob/agent.sock" "bob"] "alice").1 in
  db_wf (database w)
  ∧ rows (database w) !! 1 = Some (Row 2 "/home/bob/agent.sock" "bob" "alice" 7)
  ∧ (1 ∉ [0])
  ∧ Row 2 "/home/bob/agent.sock" "bob" "alice" 7
    ∈ rows (database (initiate_revert_changes w fresh_gui [0]).1).
Proof.
  intros w.
  assert (db_wf (database w)) as H1.
  { assert (database w
            = Db [Row 1 "/home/bob/docs/cv.txt" "bob" "alice" 7;
                  Row 2 "/home/bob/agent.sock" "bob" "alice" 7] 2) as ->
      by (vm_compute; reflexivity).
    split; simpl.
    - apply (bool_decide_unpack _). by vm_compute.
    - repeat constructor. }
  assert (rows (database w) !! 1
          = Some (Row 2 "/home/bob/agent.sock" "bob" "alice" 7)) as H2
    by (vm_compute; reflexivity).
  assert (1 ∉ [0]) as H3.
  { intros Hin. apply (bool_decide_pack _) in Hin. by vm_compute in Hin. }
  pose proof (unselected_records_survive w fresh_gui [0] 1 _ H1 H2 H3) as H.
  split_and!; [exact H1|exact H2|exact H3|exact H].
Defined.

(** ** Records whose original owner is not an account *)

Lemma for_each_all_fail_in {X}
    (body : World → X → Tally → World * Tally * list Signal) total idx xs w t :
  (∀ x t, x ∈ xs → (body w x t).1 = (w, incr_errors t)) →
  (for_each body total idx xs w t).1
  = (w, MkTally (changed t) (unchanged t) (errors t + length xs)).
Proof.
  revert idx t.
  induction xs as [|x xs IH]; intros idx t Hbody; simpl.
  - destruct t. simpl. by rewrite Nat.add_0_r.
  - pose proof (Hbody x t ltac:(by left)) as Hx.
    destruct (body w x t) as [[w1 t1] o].
    simpl in Hx. injection Hx as -> ->.
    specialize (IH (S idx) (incr_errors t)
                  (λ x t Hin, Hbody x t ltac:(by right))).
    destruct (for_each body total (S idx) xs w (incr_errors t)) as [[w2 t2] o2].
    simpl in *. rewrite IH. do 2 f_equal. lia.
Qed.

(** X22.  Records whose original owner is not an account (such as
    ["Unknown"]) cannot be reverted: the run leaves the world, audit table
    included, as it was and counts every record as an error. *)
Theorem revert_to_unknown_owner_fails (w : World) (records : list ChangeRecord) :
  (∀ r, r ∈ records → ∃ msg, getpwnam w (rec_original_owner r) = Raise msg) →
  (RevertOwnershipWorker_run w records).1 = w
  ∧ tallies_of (RevertOwnershipWorker_run w records).2
    = [MkTally 0 0 (length records)].
Proof.
  intros Hunknown.
  assert (∀ x t, x ∈ records → (revert_item w x t).1 = (w, incr_errors t))
    as Hbody.
  { intros x t Hx. destruct (Hunknown x Hx) as [msg Hmsg].
    apply revert_item_failure. by rewrite (set_owner_unknown_user _ _ _ _ Hmsg). }
  pose proof (for_each_all_fail_in revert_item (length records) 1
                records w tally0 Hbody) as H.
  pose proof (tallies_of_for_each revert_item (length records) 1
                records w tally0 revert_item_no_tally) as Ho.
  unfold RevertOwnershipWorker_run.
  destruct (for_each _ _ 1 records w tally0) as [[w' t] o]. simpl in *.
  injection H as -> ->. split; [done|]. by rewrite tallies_of_app, Ho.
Qed.

Lemma revert_to_unknown_owner_fails_witness :
  let record := Row 1 "/home/bob/docs/cv.txt" "Unknown" "alice" 7 in
  (∀ r, r ∈ [record] → ∃ msg, getpwnam changed_world (rec_original_owner r) = Raise msg)
  ∧ (RevertOwnershipWorker_run changed_world [record]).1 = changed_world.
Proof.
  intros record.
  assert (∀ r, r ∈ [record] →
            ∃ msg, getpwnam changed_world (rec_original_owner r) = Raise msg) as H.
  { intros r Hr. apply list_elem_of_singleton in Hr as ->.
    eexists. vm_compute. reflexivity. }
  split; [exact H|].
  exact (proj1 (revert_to_unknown_owner_fails changed_world [record] H)).
Defined.
